(** * Izhikevich spiking network on a fixed out-degree random digraph

    Shallow embedding of [movie1(watts_strogatz).py]: the single-neuron
    update [izhikevich], the set-up of graph, weights, parameters and
    initial state, and the per-frame callback [update].  The layout, the
    colours and the figure are not modelled; none of them writes to the
    simulation state, and [nx.spring_layout] draws from a generator of
    its own.  Of the animation, only the calls of [update] that saving
    it makes are modelled.

    Numbers.  The program computes on binary64 floats.  The network, its
    set-up and the steps of a run are modelled over exact rationals [Q]:
    every operation is the exact one, there is no rounding, no overflow
    and no NaN, and comparisons are the decidable comparisons of [Q].
    Which branch of [V >= 30] a neuron takes can depend on the rounding,
    so the single-neuron update and the loop that applies it are given a
    second time on the binary64 floats of [PrimFloat], with their
    rounding, infinities and NaN: [izhikevich64], [clip64], [dynamics64].

    Arrays.  A numpy vector is a list of numbers, read with the total
    lookup [l !!! i] and written with [<[i:=x]> l]; every index the
    program uses comes from [range(N)] on arrays of length [N].

    Libraries.  The calls into numpy and networkx are modelled from what
    these libraries do: [np.random.choice] without replacement is a prefix
    of a Fisher-Yates permutation, [np.random.uniform] is
    [low + (high - low) * random_sample()], [G.add_edge] does not duplicate
    an edge, and the exceptions are the ones numpy raises.

    Randomness.  The global [np.random] generator is a tape of raw draws
    with a cursor, one cell per call; [np.random.seed] installs the tape
    of the seed.  The properties below hold for every tape, that is, for
    every outcome of the draws. *)

From Stdlib Require Import ZArith QArith Qminmax Lia Lqa List.
From Stdlib Require Import Floats.PrimFloat.
From stdpp Require Import base tactics option list list_numbers sets.

(** A decimal literal of the source, such as [0.04], is the binary64
    nearest to it, in Python and in [float_scope] alike. *)
#[local] Set Warnings "-inexact-float".

Local Open Scope Q_scope.

#[global] Instance Q_inhabited : Inhabited Q := populate 0.

(** ** Comparisons of the source, as booleans *)

(** [x >= y] *)
Definition Qgeb (x y : Q) : bool := Qle_bool y x.

(** [x > y] *)
Definition Qgtb (x y : Q) : bool := negb (Qle_bool x y).

(** ** The single-neuron model *)

(** [def izhikevich(V, u, I, a, b, c, d)]: one Euler step of the membrane
    potential and of the recovery variable, then the reset. *)
Definition izhikevich (V u I a b c d : Q) : Q * Q :=
  let dV := 0.04 * V ^ 2 + 5 * V + 140 - u + I in
  let du := a * (b * V - u) in
  let V := V + dV in
  let u := u + du in
  if Qgeb V 30 then (c, u + d) else (V, u).

(** [np.clip(x, lo, hi)] is [minimum(maximum(x, lo), hi)]. *)
Definition clip (x lo hi : Q) : Q := Qmin (Qmax x lo) hi.

(** ** Exceptions *)

(** The two exceptions the libraries raise during set-up. *)
Inductive exn := ValueError | IndexError.

Inductive result (A : Type) :=
  | Ok (x : A)
  | Raise (e : exn).
Arguments Ok {A} x.
Arguments Raise {A} e.

#[global] Instance result_ret : MRet result := @Ok.
#[global] Instance result_bind : MBind result := λ A B f m,
  match m with
  | Ok x => f x
  | Raise e => Raise e
  end.

(** A [for] loop whose body may raise: the first exception ends it. *)
Fixpoint for_each {A S} (xs : list A) (body : A -> S -> result S) (s : S)
  : result S :=
  match xs with
  | [] => Ok s
  | x :: xs' => s' ← body x s; for_each xs' body s'
  end.

(** [range(n)] for a Python integer [n]; empty when [n <= 0]. *)
Definition range (n : Z) : list nat := seq 0 (Z.to_nat n).

(** ** The global random generator *)

(** State of [np.random]: the raw output of the generator and how much
    of it has been consumed. *)
Record RandomState := mkRandomState {
  tape : nat -> N;
  cursor : nat;
}.

Definition next_raw (r : RandomState) : N * RandomState :=
  (tape r (cursor r), mkRandomState (tape r) (S (cursor r))).

(** [random_sample()]: a double in [[0, 1)] with 53 random bits. *)
Definition random_sample (r : RandomState) : Q * RandomState :=
  let (x, r') := next_raw r in
  (Z.of_N (x mod 2 ^ 53) # 2 ^ 53, r').

(** [random_interval(max)]: an integer in [[0, max]]. *)
Definition random_interval (max : nat) (r : RandomState) : nat * RandomState :=
  let (x, r') := next_raw r in
  (N.to_nat (x mod (N.of_nat max + 1)), r').

(** [np.random.uniform(low, high)]: [low + (high - low) * random_sample()]. *)
Definition uniform (low high : Q) (r : RandomState) : Q * RandomState :=
  let (x, r') := random_sample r in
  (low + (high - low) * x, r').

(** [np.random.uniform(low, high, size)] fills the array front to back. *)
Fixpoint uniform_array (low high : Q) (size : nat) (r : RandomState)
  : list Q * RandomState :=
  match size with
  | O => ([], r)
  | S n =>
      let (x, r1) := uniform low high r in
      let (xs, r2) := uniform_array low high n r1 in
      (x :: xs, r2)
  end.

(** [x[i], x[j] = x[j], x[i]] *)
Definition swap (x : list nat) (i j : nat) : list nat :=
  <[j := x !!! i]> (<[i := x !!! j]> x).

(** Body of the loop of [shuffle]: [j = random_interval(i)], then the
    swap of [x[i]] and [x[j]]. *)
Definition shuffle_step (xr : list nat * RandomState) (i : nat)
  : list nat * RandomState :=
  let '(x, r) := xr in
  let (j, r') := random_interval i r in
  (swap x i j, r').

(** [shuffle(x)]: [for i in reversed(range(1, n))]. *)
Definition shuffle (x : list nat) (r : RandomState) : list nat * RandomState :=
  fold_left shuffle_step (rev (seq 1 (length x - 1))) (x, r).

(** [permutation(n)]: [shuffle(arange(n))]. *)
Definition permutation (n : nat) (r : RandomState) : list nat * RandomState :=
  shuffle (seq 0 n) r.

(** [np.random.choice(a, size, replace=False)]: the first [size] entries
    of a random permutation of the indices of [a]; a [ValueError] when
    the sample is larger than the population or [size] is negative. *)
Definition choice (a : list nat) (size : Z) (r : RandomState)
  : result (list nat * RandomState) :=
  let pop_size := length a in
  if (Z.of_nat pop_size <? size)%Z then Raise ValueError
  else if (size <? 0)%Z then Raise ValueError
  else
    let (idx, r') := permutation pop_size r in
    Ok ((λ i, a !!! i) <$> take (Z.to_nat size) idx, r').

(** ** numpy arrays *)

(** [np.full(n, x)]; a negative dimension is a [ValueError]. *)
Definition np_full (n : Z) (x : Q) : result (list Q) :=
  if (n <? 0)%Z then Raise ValueError else Ok (replicate (Z.to_nat n) x).

(** [np.zeros(n)] *)
Definition np_zeros (n : Z) : result (list Q) := np_full n 0.

(** [arr[i] = x] for [0 <= i]; out of bounds is an [IndexError]. *)
Definition setitem (arr : list Q) (i : nat) (x : Q) : result (list Q) :=
  if decide (i < length arr)%nat then Ok (<[i := x]> arr) else Raise IndexError.

(** ** The directed graph *)

(** [nx.DiGraph] over the nodes [0 .. N-1], inserted in this order: entry
    [i] lists the successors of node [i] in insertion order. *)
Abbreviation DiGraph := (list (list nat)).

(** [G.add_nodes_from(nodes)] for new nodes that continue the numbering;
    the script calls it once, on the empty graph, with [range(N)]. *)
Definition add_nodes_from (nodes : list nat) (g : DiGraph) : DiGraph :=
  g ++ replicate (length nodes) [].

(** [G.successors(i)] *)
Definition successors (g : DiGraph) (i : nat) : list nat := g !!! i.

(** [G.add_edge(u, v)] between two nodes of the graph: an edge that is
    already present is not added a second time. *)
Definition add_edge (g : DiGraph) (u v : nat) : DiGraph :=
  if decide (v ∈ successors g u) then g
  else <[u := successors g u ++ [v]]> g.

(** [G.edges()]: node by node, each node's successors in order. *)
Definition edges (g : DiGraph) : list (nat * nat) :=
  flat_map (fun i => map (pair i) (successors g i)) (seq 0 (length g)).

(** ** The network and its state *)

(** [params]: one array per model parameter. *)
Record Params := mkParams {
  p_a : list Q;
  p_b : list Q;
  p_c : list Q;
  p_d : list Q;
}.

(** What set-up builds and the simulation only reads: [N], [G], [W],
    [params]. *)
Record Network := mkNetwork {
  net_N : nat;
  net_G : DiGraph;
  net_W : list (list Q);
  net_params : Params;
}.

(** The globals [update] assigns, [V], [u] and [I], and the generator. *)
Record State := mkState {
  st_V : list Q;
  st_u : list Q;
  st_I : list Q;
  st_rng : RandomState;
}.

(** [W[i, j]] *)
Definition weight (W : list (list Q)) (i j : nat) : Q := (W !!! i) !!! j.

(** [W[i, j] = x] *)
Definition set_weight (W : list (list Q)) (i j : nat) (x : Q) : list (list Q) :=
  <[i := <[j := x]> (W !!! i)]> W.

(** ** [update]: one simulation step *)

(** [new_I[j] += W[i, j] * (V[i]*2 - params["c"][i])] *)
Definition propagate_edge (net : Network) (V : list Q) (i : nat)
    (new_I : list Q) (j : nat) : list Q :=
  <[j := new_I !!! j
         + weight (net_W net) i j * (V !!! i * 2 - p_c (net_params net) !!! i)]>
    new_I.

(** Body of the first loop of [update] for neuron [i]. *)
Definition propagate_from (net : Network) (V : list Q)
    (new_I : list Q) (i : nat) : list Q :=
  if Qgtb (V !!! i) 0 then
    let neighbors := successors (net_G net) i in
    fold_left (propagate_edge net V i) neighbors new_I
  else new_I.

(** The first loop of [update], from [new_I = np.zeros(N)]. *)
Definition propagate (net : Network) (V : list Q) : list Q :=
  fold_left (propagate_from net V) (seq 0 (net_N net))
    (replicate (net_N net) 0).

(** The call [izhikevich(V[i], u[i], I[i], params["a"][i], params["b"][i],
    params["c"][i], params["d"][i])]. *)
Definition izhikevich_at (net : Network) (V u I : list Q) (i : nat) : Q * Q :=
  izhikevich (V !!! i) (u !!! i) (I !!! i)
    (p_a (net_params net) !!! i) (p_b (net_params net) !!! i)
    (p_c (net_params net) !!! i) (p_d (net_params net) !!! i).

(** Body of the second loop of [update] for neuron [i]: the two stores
    of the tuple assignment, then the store of the clipped potential. *)
Definition dynamics_at (net : Network) (I : list Q)
    (Vu : list Q * list Q) (i : nat) : list Q * list Q :=
  let '(V, u) := Vu in
  let '(Vi, ui) := izhikevich_at net V u I i in
  let V := <[i := Vi]> V in
  let u := <[i := ui]> u in
  let V := <[i := clip (V !!! i) (-80) 80]> V in
  (V, u).

(** The second loop of [update], in place on [V] and [u]. *)
Definition dynamics (net : Network) (I V u : list Q) : list Q * list Q :=
  fold_left (dynamics_at net I) (seq 0 (net_N net)) (V, u).

(** [def update(t)]; [t] only goes into the title of the figure. *)
Definition update (net : Network) (t : nat) (st : State) : State :=
  let new_I := propagate net (st_V st) in
  let (noise, rng) := uniform_array (-0.5) 0.5 (net_N net) (st_rng st) in
  let I := zip_with Qplus new_I noise in
  let (V, u) := dynamics net I (st_V st) (st_u st) in
  mkState V u I rng.

(** The animation calls [update] once per frame it draws; the states
    after each call, in order.  The properties of [simulate] hold for
    every list of frames. *)
Fixpoint simulate (net : Network) (frames : list nat) (st : State)
  : list State :=
  match frames with
  | [] => []
  | t :: frames' =>
      let st' := update net t st in
      st' :: simulate net frames' st'
  end.

(** ** The neuron update on binary64

    [izhikevich], the clip and the second loop of [update] once more, on
    the numbers the program computes with.  [V], [u], [I] and the four
    parameter arrays are float64 arrays, and every operand below is one
    of their cells or a constant, so every operation is the binary64
    one. *)

#[global] Instance float_inhabited : Inhabited float := populate 0%float.

(** [params]: the arrays [a], [b], [c] and [d]. *)
Record Params64 := mkParams64 {
  a64 : list float;
  b64 : list float;
  c64 : list float;
  d64 : list float;
}.

Section Binary64.
Local Open Scope float_scope.

(** [V**2] on a float64 is the [pow] of the C library at the exponent
    [2.0].  Nothing is assumed of it. *)
Variable pow : float -> float -> float.

(** [def izhikevich(V, u, I, a, b, c, d)]; [V >= 30] is false on a NaN. *)
Definition izhikevich64 (V u I a b c d : float) : float * float :=
  let dV := 0.04 * pow V 2 + 5 * V + 140 - u + I in
  let du := a * (b * V - u) in
  let V := V + dV in
  let u := u + du in
  if 30 <=? V then (c, u + d) else (V, u).

(** The maximum and the minimum that [np.clip] is made of: a NaN in the
    first argument is returned, and so is the first argument when the
    comparison with the second holds. *)
Definition maximum64 (x y : float) : float :=
  if is_nan x then x else if y <? x then x else y.

Definition minimum64 (x y : float) : float :=
  if is_nan x then x else if x <? y then x else y.

(** [np.clip(x, lo, hi)] *)
Definition clip64 (x lo hi : float) : float :=
  minimum64 (maximum64 x lo) hi.

(** The call of [izhikevich] for neuron [i]. *)
Definition izhikevich64_at (params : Params64) (V u I : list float) (i : nat)
  : float * float :=
  izhikevich64 (V !!! i) (u !!! i) (I !!! i)
    (a64 params !!! i) (b64 params !!! i)
    (c64 params !!! i) (d64 params !!! i).

(** Body of the second loop of [update] for neuron [i]. *)
Definition dynamics64_at (params : Params64) (I : list float)
    (Vu : list float * list float) (i : nat) : list float * list float :=
  let '(V, u) := Vu in
  let '(Vi, ui) := izhikevich64_at params V u I i in
  let V := <[i := Vi]> V in
  let u := <[i := ui]> u in
  let V := <[i := clip64 (V !!! i) (-80) 80]> V in
  (V, u).

(** The second loop of [update], [for i in range(N)], in place on [V]
    and [u], for the current [I] of the step. *)
Definition dynamics64 (N : nat) (params : Params64) (I V u : list float)
  : list float * list float :=
  fold_left (dynamics64_at params I) (seq 0 N) (V, u).

End Binary64.

(** ** Set-up *)

Section Script.

(** The draws the generator behind [np.random] hands out after
    [np.random.seed(s)], in order. *)
Variable mt19937 : Z -> nat -> N.

(** [np.random.seed(s)] discards the state of the generator. *)
Definition seed (s : Z) (r : RandomState) : RandomState :=
  mkRandomState (mt19937 s) 0.

(** [[n for n in range(N) if n != node]] *)
Definition others (N : Z) (node : nat) : list nat :=
  filter (λ n, n ≠ node) (range N).

(** Body of the loop over [node]. *)
Definition connect (N k : Z) (node : nat) (Gr : DiGraph * RandomState)
  : result (DiGraph * RandomState) :=
  let '(G, r) := Gr in
  '(targets, r') ← choice (others N node) k r;
  Ok (fold_left (λ G target, add_edge G node target) targets G, r').

(** The graph: [G = nx.DiGraph()], the nodes, the seeding, the edges. *)
Definition build_graph (N k s : Z) (r : RandomState)
  : result (DiGraph * RandomState) :=
  let G := add_nodes_from (range N) [] in
  let r := seed s r in
  for_each (range N) (connect N k) (G, r).

(** [for i, j in G.edges(): W[i, j] = np.random.uniform(0.8, 1.2)] *)
Definition assign_weights (G : DiGraph) (W : list (list Q)) (r : RandomState)
  : list (list Q) * RandomState :=
  fold_left
    (λ '(W, r) '(i, j), let (x, r') := uniform 0.8 1.2 r in (set_weight W i j x, r'))
    (edges G) (W, r).

(** Everything the script does before the animation starts, for the
    constants [N], [k] and the seed [s]; [r0] is the state of the
    generator when the script starts.  Once [np.full(N, ...)] has
    returned, [N] is not negative. *)
Definition setup (N k s : Z) (r0 : RandomState) : result (Network * State) :=
  '(G, r) ← build_graph N k s r0;
  V ← np_full N (-65);
  V ← setitem V 0 60;
  u ← np_full N 0;
  let n := Z.to_nat N in
  let (a, r) := uniform_array 0.01 0.03 n r in
  let (b, r) := uniform_array 0.1 0.3 n r in
  let (c, r) := uniform_array (-68) (-58) n r in
  let (d, r) := uniform_array 2 10 n r in
  I ← np_zeros N;
  I ← setitem I 0 150;
  let W := replicate n (replicate n 0) in
  let (W, r) := assign_weights G W r in
  Ok (mkNetwork n G W (mkParams a b c d), mkState V u I r).

(** [FuncAnimation(fig, update, frames=T)] followed by
    [ani.save(..., writer="pillow")].  There is no [init_func], so saving
    first draws frame [0] to initialise the figure and then draws the
    frames of [range(T)], each by one call of [update]: [T + 1] calls.
    With [T <= 0] there is no frame; no call of [update] is made and the
    writer, which finds no image to write, raises an [IndexError].
    [plt.show()] comes after the file is written and is not modelled. *)
Definition animate (net : Network) (T : Z) (st : State)
  : result (list State) :=
  if (T <=? 0)%Z then Raise IndexError
  else Ok (simulate net (0%nat :: range T) st).

(** The simulation part of the script: set-up, then the animation. *)
Definition script (N k T s : Z) (r0 : RandomState)
  : result (Network * list State) :=
  '(net, st) ← setup N k s r0;
  trajectory ← animate net T st;
  Ok (net, trajectory).

(** The ranges of the four parameters, constants of the script, as
    [(low, high)]. *)
Record Ranges := mkRanges {
  range_a : Q * Q;
  range_b : Q * Q;
  range_c : Q * Q;
  range_d : Q * Q;
}.

Definition script_ranges : Ranges :=
  mkRanges (0.01, 0.03) (0.1, 0.3) (-68, -58) (2, 10).

(** [setup] and [script] with the four ranges as further constants, to
    say what happens when they are edited; at [script_ranges] these are
    [setup] and [script]. *)
Definition setup_with (ranges : Ranges) (N k s : Z) (r0 : RandomState)
  : result (Network * State) :=
  '(G, r) ← build_graph N k s r0;
  V ← np_full N (-65);
  V ← setitem V 0 60;
  u ← np_full N 0;
  let n := Z.to_nat N in
  let (a, r) := uniform_array (range_a ranges).1 (range_a ranges).2 n r in
  let (b, r) := uniform_array (range_b ranges).1 (range_b ranges).2 n r in
  let (c, r) := uniform_array (range_c ranges).1 (range_c ranges).2 n r in
  let (d, r) := uniform_array (range_d ranges).1 (range_d ranges).2 n r in
  I ← np_zeros N;
  I ← setitem I 0 150;
  let W := replicate n (replicate n 0) in
  let (W, r) := assign_weights G W r in
  Ok (mkNetwork n G W (mkParams a b c d), mkState V u I r).

Definition script_with (ranges : Ranges) (N k T s : Z) (r0 : RandomState)
  : result (Network * list State) :=
  '(net, st) ← setup_with ranges N k s r0;
  trajectory ← animate net T st;
  Ok (net, trajectory).

End Script.

Local Close Scope Q_scope.

(** ** Vocabulary of the specification *)

(** The generator [n] raw draws later. *)
Definition advance (r : RandomState) (n : nat) : RandomState :=
  mkRandomState (tape r) (cursor r + n).

(** What a firing neuron [i] adds to the accumulator of [j]:
    [EdgeWeight(i,j) * (2*V[i] - c_i)]. *)
Definition contribution (net : Network) (V : list Q) (i j : nat) : Q :=
  (weight (net_W net) i j * (V !!! i * 2 - p_c (net_params net) !!! i))%Q.

(** The neurons that feed [j]: above the firing threshold [0] and with an
    edge to [j], in increasing order. *)
Definition sources (net : Network) (V : list Q) (j : nat) : list nat :=
  filter (λ i, Qgtb (V !!! i) 0 ∧ j ∈ successors (net_G net) i)
    (seq 0 (net_N net)).

(** Sum of a list of currents, accumulated from [0] front to back. *)
Definition total (xs : list Q) : Q := fold_left Qplus xs 0%Q.

(** The potential and the recovery variable after the Euler step and
    before the reset: [V + dV] and [u + du]. *)
Definition membrane_step (V u I : Q) : Q :=
  (V + (0.04 * V ^ 2 + 5 * V + 140 - u + I))%Q.

Definition recovery_step (V u a b : Q) : Q := (u + a * (b * V - u))%Q.

(** The current of a step, from the potentials and the generator before
    the step. *)
Definition input_current (net : Network) (V : list Q) (rng : RandomState)
  : list Q :=
  zip_with Qplus (propagate net V) (uniform_array (-0.5) 0.5 (net_N net) rng).1.

(** What [connect] leaves at a node it has processed. *)
Definition k_regular_at (N k : Z) (G : DiGraph) (node : nat) : Prop :=
  length (successors G node) = Z.to_nat k
  ∧ (node ∉ successors G node)
  ∧ NoDup (successors G node)
  ∧ ∀ target, target ∈ successors G node → target < Z.to_nat N.

(** Hypotheses under which [update] is studied; set-up establishes them
    and [update] keeps them. *)
Definition simple_graph (net : Network) : Prop :=
  ∀ i, NoDup (successors (net_G net) i).

Definition sized (net : Network) (st : State) : Prop :=
  length (st_V st) = net_N net ∧ length (st_u st) = net_N net.

Definition reset_in_range (net : Network) : Prop :=
  ∀ i, i < net_N net →
    (-68 <= p_c (net_params net) !!! i ∧ p_c (net_params net) !!! i <= -58)%Q.

(** An [n] by [n] matrix. *)
Definition square (n : nat) (W : list (list Q)) : Prop :=
  length W = n ∧ ∀ i, i < n → length (W !!! i) = n.

(** Every entry of [W] at an edge lies in the range of the weights, every
    other entry is zero. *)
Definition weights_on_edges (net : Network) : Prop :=
  ∀ i j,
    if decide (j ∈ successors (net_G net) i)
    then (0.8 <= weight (net_W net) i j ∧ weight (net_W net) i j <= 1.2)%Q
    else weight (net_W net) i j = 0%Q.

(** One value per neuron and parameter, each in its range. *)
Definition sampled_params (net : Network) : Prop :=
  let p := net_params net in
  length (p_a p) = net_N net ∧ length (p_b p) = net_N net
  ∧ length (p_c p) = net_N net ∧ length (p_d p) = net_N net
  ∧ ∀ i, i < net_N net →
      (0.01 <= p_a p !!! i ∧ p_a p !!! i <= 0.03)%Q
      ∧ (0.1 <= p_b p !!! i ∧ p_b p !!! i <= 0.3)%Q
      ∧ (-68 <= p_c p !!! i ∧ p_c p !!! i <= -58)%Q
      ∧ (2 <= p_d p !!! i ∧ p_d p !!! i <= 10)%Q.

(** The arrays [V], [u] and [I] as set-up leaves them. *)
Definition initial_state (net : Network) (st : State) : Prop :=
  st_V st = <[0 := 60%Q]> (replicate (net_N net) (-65)%Q)
  ∧ st_u st = replicate (net_N net) 0%Q
  ∧ st_I st = <[0 := 150%Q]> (replicate (net_N net) 0%Q).

(** Arrays of length [N], potentials in the clip range, recovery
    variables in [[-24, 1024]]. *)
Definition bounded (net : Network) (st : State) : Prop :=
  sized net st
  ∧ ∀ i, i < net_N net →
      (-80 <= st_V st !!! i ∧ st_V st !!! i <= 80)%Q
      ∧ (-24 <= st_u st !!! i ∧ st_u st !!! i <= 1024)%Q.

(** ** A small instance

    A toy generator and the network the script builds from it with
    [N = 3], [k = 1] and seed 42. *)

Definition example_mt (s : Z) (n : nat) : N :=
  ((Z.to_N s + 1) * 6364136223846793005 * (N.of_nat n + 1)
   + 1442695040888963407) mod 2 ^ 64.

Definition example_rng : RandomState := mkRandomState (λ _, 0%N) 0.

Definition example_net : Network :=
  match setup example_mt 3 1 42 example_rng with
  | Ok (net, _) => net
  | Raise _ => mkNetwork 0 [] [] (mkParams [] [] [] [])
  end.

Definition example_st : State :=
  match setup example_mt 3 1 42 example_rng with
  | Ok (_, st) => st
  | Raise _ => mkState [] [] [] example_rng
  end.


Definition example_other : State :=
  mkState (<[1 := 10%Q]> (st_V example_st)) (st_u example_st)
    (st_I example_st) (st_rng example_st).

(** The networks of the toy generator for [N = 3], [k = 2] and for
    [N = 1], [k = 0]. *)
Definition example_complete_net : Network :=
  match setup example_mt 3 2 42 example_rng with
  | Ok (net, _) => net
  | Raise _ => mkNetwork 0 [] [] (mkParams [] [] [] [])
  end.

Definition example_complete_st : State :=
  match setup example_mt 3 2 42 example_rng with
  | Ok (_, st) => st
  | Raise _ => mkState [] [] [] example_rng
  end.

Definition example_single_net : Network :=
  match setup example_mt 1 0 42 example_rng with
  | Ok (net, _) => net
  | Raise _ => mkNetwork 0 [] [] (mkParams [] [] [] [])
  end.

Definition example_single_st : State :=
  match setup example_mt 1 0 42 example_rng with
  | Ok (_, st) => st
  | Raise _ => mkState [] [] [] example_rng
  end.


(** Two neurons on binary64, the first one driven above the threshold;
    the square for [pow]. *)
Definition example_pow (x y : float) : float := (x * x)%float.

Definition example_params64 : Params64 :=
  mkParams64 [0.02; 0.02]%float [0.2; 0.2]%float
    [-65; -60]%float [8; 6]%float.

Definition example_V64 : list float := [60; -65]%float.
Definition example_u64 : list float := [0; 0]%float.
Definition example_I64 : list float := [150; 0.25]%float.

(** * Properties *)

(** ** Comparisons and the clip *)

Section Comparisons.
Local Open Scope Q_scope.

Lemma Qgeb_true (x y : Q) : Qgeb x y = true ↔ y <= x.
Proof. apply Qle_bool_iff. Qed.

Lemma Qgeb_false (x y : Q) : Qgeb x y = false ↔ x < y.
Proof.
  unfold Qgeb. rewrite <- not_true_iff_false, Qle_bool_iff.
  split; [apply Qnot_le_lt | apply Qlt_not_le].
Qed.

Lemma Qgtb_true (x y : Q) : Qgtb x y = true ↔ y < x.
Proof.
  unfold Qgtb. rewrite negb_true_iff, <- not_true_iff_false, Qle_bool_iff.
  split; [apply Qnot_le_lt | apply Qlt_not_le].
Qed.

Lemma Qgtb_false (x y : Q) : Qgtb x y = false ↔ x <= y.
Proof. unfold Qgtb. rewrite negb_false_iff. apply Qle_bool_iff. Qed.

Lemma clip_range (x lo hi : Q) :
  lo <= hi → lo <= clip x lo hi ∧ clip x lo hi <= hi.
Proof.
  intros Hlh. unfold clip. split.
  - apply Q.min_glb; [apply Q.le_max_r | exact Hlh].
  - apply Q.le_min_r.
Qed.

Lemma clip_id (x lo hi : Q) : lo <= x → x <= hi → clip x lo hi = x.
Proof.
  intros Hl Hh. unfold clip.
  assert (Qmax x lo = x) as ->.
  { unfold Qmax, GenericMinMax.gmax. destruct (x ?= lo) eqn:E; try reflexivity.
    apply Qlt_alt in E. lra. }
  unfold Qmin, GenericMinMax.gmin. destruct (x ?= hi) eqn:E; try reflexivity.
  apply Qgt_alt in E. lra.
Qed.

Lemma clip_lt (x lo hi b : Q) : lo < b → x < b → clip x lo hi < b.
Proof.
  intros Hl Hx. unfold clip.
  apply Q.min_lt_iff. left. apply Q.max_lub_lt; assumption.
Qed.
End Comparisons.

(** ** The second loop of [update], neuron by neuron *)

Section Dynamics.
Context (net : Network) (I : list Q) (n : nat).

Lemma dynamics_at_length V u i V' u' :
  dynamics_at net I (V, u) i = (V', u') →
  length V' = length V ∧ length u' = length u.
Proof.
  unfold dynamics_at. destruct (izhikevich_at net V u I i) as [Vi ui].
  intros [= <- <-]. by rewrite !length_insert.
Qed.

Lemma dynamics_at_lookup V u i V' u' :
  i < length V → i < length u →
  dynamics_at net I (V, u) i = (V', u') →
  V' !!! i = clip (izhikevich_at net V u I i).1 (-80) 80%Q
  ∧ u' !!! i = (izhikevich_at net V u I i).2
  ∧ ∀ j, j ≠ i → V' !!! j = V !!! j ∧ u' !!! j = u !!! j.
Proof.
  intros HV Hu. unfold dynamics_at.
  destruct (izhikevich_at net V u I i) as [Vi ui]. intros [= <- <-].
  rewrite !list_lookup_total_insert_eq by (rewrite ?length_insert; lia).
  repeat split; rewrite ?list_lookup_total_insert_ne by done; done.
Qed.

Lemma dynamics_prefix m V u :
  length V = n → length u = n → m ≤ n →
  ∃ V' u', fold_left (dynamics_at net I) (seq 0 m) (V, u) = (V', u')
    ∧ length V' = n ∧ length u' = n
    ∧ (∀ i, i < m →
         V' !!! i = clip (izhikevich_at net V u I i).1 (-80) 80%Q
         ∧ u' !!! i = (izhikevich_at net V u I i).2)
    ∧ (∀ i, m ≤ i → V' !!! i = V !!! i ∧ u' !!! i = u !!! i).
Proof.
  intros HV Hu. induction m as [|m IH]; intros Hm.
  - exists V, u. split_and!; [done..| |]; [lia | done].
  - destruct IH as (V1 & u1 & Hfold & HV1 & Hu1 & Hlt & Hge); [lia|].
    rewrite seq_S, fold_left_app, Hfold. simpl.
    destruct (dynamics_at net I (V1, u1) m) as [V2 u2] eqn:Hat.
    destruct (dynamics_at_length _ _ _ _ _ Hat) as [HV2 Hu2].
    destruct (dynamics_at_lookup V1 u1 m V2 u2) as (HVm & Hum & Hother);
      [lia|lia|done|].
    exists V2, u2. split; [done|]. split; [lia|]. split; [lia|]. split.
    + intros i Hi. destruct (decide (i = m)) as [->|Hne].
      * rewrite HVm, Hum. unfold izhikevich_at.
        by destruct (Hge m ltac:(lia)) as [-> ->].
      * destruct (Hother i Hne) as [-> ->]. apply Hlt. lia.
    + intros i Hi. destruct (Hother i ltac:(lia)) as [-> ->]. apply Hge. lia.
Qed.
End Dynamics.

(** ** The same loop on binary64 *)

Section Dynamics64.
Context (pow : float → float → float) (params : Params64).
Context (I : list float) (n : nat).

(** A value strictly inside the clip range is stored as it is. *)
Lemma clip64_inside x lo hi :
  (lo <? x)%float = true → (x <? hi)%float = true → clip64 x lo hi = x.
Proof.
  intros Hlo Hhi. unfold clip64, maximum64.
  destruct (is_nan x) eqn:Hnan.
  - unfold minimum64. by rewrite Hnan.
  - rewrite Hlo. unfold minimum64. by rewrite Hnan, Hhi.
Qed.

Lemma dynamics64_at_length V u i V' u' :
  dynamics64_at pow params I (V, u) i = (V', u') →
  length V' = length V ∧ length u' = length u.
Proof.
  unfold dynamics64_at.
  destruct (izhikevich64_at pow params V u I i) as [Vi ui].
  intros [= <- <-]. by rewrite !length_insert.
Qed.

Lemma dynamics64_at_lookup V u i V' u' :
  i < length V → i < length u →
  dynamics64_at pow params I (V, u) i = (V', u') →
  V' !!! i = clip64 (izhikevich64_at pow params V u I i).1 (-80) 80
  ∧ u' !!! i = (izhikevich64_at pow params V u I i).2
  ∧ ∀ j, j ≠ i → V' !!! j = V !!! j ∧ u' !!! j = u !!! j.
Proof.
  intros HV Hu. unfold dynamics64_at.
  destruct (izhikevich64_at pow params V u I i) as [Vi ui]. intros [= <- <-].
  rewrite !list_lookup_total_insert_eq by (rewrite ?length_insert; lia).
  repeat split; rewrite ?list_lookup_total_insert_ne by done; done.
Qed.

(** After [m] rounds the first [m] neurons hold their new values, computed
    from the old ones, and the others are untouched. *)
Lemma dynamics64_prefix m V u :
  length V = n → length u = n → m ≤ n →
  ∃ V' u', fold_left (dynamics64_at pow params I) (seq 0 m) (V, u) = (V', u')
    ∧ length V' = n ∧ length u' = n
    ∧ (∀ i, i < m →
         V' !!! i = clip64 (izhikevich64_at pow params V u I i).1 (-80) 80
         ∧ u' !!! i = (izhikevich64_at pow params V u I i).2)
    ∧ (∀ i, m ≤ i → V' !!! i = V !!! i ∧ u' !!! i = u !!! i).
Proof.
  intros HV Hu. induction m as [|m IH]; intros Hm.
  - exists V, u. split_and!; [done..| |]; [lia | done].
  - destruct IH as (V1 & u1 & Hfold & HV1 & Hu1 & Hlt & Hge); [lia|].
    rewrite seq_S, fold_left_app, Hfold. simpl.
    destruct (dynamics64_at pow params I (V1, u1) m) as [V2 u2] eqn:Hat.
    destruct (dynamics64_at_length _ _ _ _ _ Hat) as [HV2 Hu2].
    destruct (dynamics64_at_lookup V1 u1 m V2 u2) as (HVm & Hum & Hother);
      [lia|lia|done|].
    exists V2, u2. split; [done|]. split; [lia|]. split; [lia|]. split.
    + intros i Hi. destruct (decide (i = m)) as [->|Hne].
      * rewrite HVm, Hum. unfold izhikevich64_at.
        by destruct (Hge m ltac:(lia)) as [-> ->].
      * destruct (Hother i Hne) as [-> ->]. apply Hlt. lia.
    + intros i Hi. destruct (Hother i ltac:(lia)) as [-> ->]. apply Hge. lia.
Qed.

(** What the loop leaves at neuron [i]: the clipped potential and the
    recovery variable that [izhikevich] returns on the values the neuron
    had before the loop. *)
Lemma dynamics64_lookup V u i :
  length V = n → length u = n → i < n →
  (dynamics64 pow n params I V u).1 !!! i
    = clip64 (izhikevich64_at pow params V u I i).1 (-80) 80
  ∧ (dynamics64 pow n params I V u).2 !!! i
    = (izhikevich64_at pow params V u I i).2.
Proof.
  intros HV Hu Hi. unfold dynamics64.
  destruct (dynamics64_prefix n V u HV Hu) as (V' & u' & -> & _ & _ & Hlt & _);
    [done|].
  by apply Hlt.
Qed.

Lemma dynamics64_length V u :
  length V = n → length u = n →
  length (dynamics64 pow n params I V u).1 = n
  ∧ length (dynamics64 pow n params I V u).2 = n.
Proof.
  intros HV Hu. unfold dynamics64.
  by destruct (dynamics64_prefix n V u HV Hu) as (V' & u' & -> & ? & ? & _).
Qed.
End Dynamics64.

(** ** The first loop of [update]: what reaches neuron [j] *)

Section Propagation.
Context (net : Network) (V : list Q).

Lemma propagate_edge_length i new_I j :
  length (propagate_edge net V i new_I j) = length new_I.
Proof. unfold propagate_edge. by rewrite length_insert. Qed.

Lemma propagate_edges_length i s new_I :
  length (fold_left (propagate_edge net V i) s new_I) = length new_I.
Proof.
  revert new_I. induction s as [|j s IH]; intros new_I; simpl; [done|].
  by rewrite IH, propagate_edge_length.
Qed.

Lemma propagate_edges_lookup i s new_I j :
  NoDup s → j < length new_I →
  fold_left (propagate_edge net V i) s new_I !!! j =
    if decide (j ∈ s) then (new_I !!! j + contribution net V i j)%Q
    else new_I !!! j.
Proof.
  revert new_I. induction s as [|j' s IH]; intros new_I Hnd Hj; cbn [fold_left].
  { case_decide; [set_solver|done]. }
  apply NoDup_cons in Hnd as [Hj' Hnd].
  rewrite IH by (by rewrite ?propagate_edge_length).
  unfold propagate_edge. destruct (decide (j = j')) as [->|Hne].
  - rewrite list_lookup_total_insert_eq by done.
    rewrite decide_False by done. by rewrite decide_True by left.
  - rewrite list_lookup_total_insert_ne by done.
    destruct (decide (j ∈ s)) as [Hs|Hs].
    + by rewrite decide_True by (by right).
    + by rewrite decide_False by (by apply not_elem_of_cons).
Qed.

Lemma propagate_from_length new_I i :
  length (propagate_from net V new_I i) = length new_I.
Proof.
  unfold propagate_from. destruct (Qgtb _ _); [|done].
  apply propagate_edges_length.
Qed.

Lemma propagate_prefix_length m new_I :
  length (fold_left (propagate_from net V) (seq 0 m) new_I) = length new_I.
Proof.
  induction m as [|m IH]; [done|].
  by rewrite seq_S, fold_left_app; simpl; rewrite propagate_from_length.
Qed.

Lemma propagate_from_silent new_I i :
  (V !!! i <= 0)%Q → propagate_from net V new_I i = new_I.
Proof.
  intros H. unfold propagate_from. by apply Qgtb_false in H as ->.
Qed.

Hypothesis simple_graph : ∀ i, NoDup (successors (net_G net) i).

Lemma propagate_prefix m new_I j :
  j < length new_I →
  fold_left (propagate_from net V) (seq 0 m) new_I !!! j =
  fold_left Qplus
    (map (λ i, contribution net V i j)
       (filter (λ i, Qgtb (V !!! i) 0 ∧ j ∈ successors (net_G net) i) (seq 0 m)))
    (new_I !!! j).
Proof.
  intros Hj. induction m as [|m IH]; [done|].
  rewrite seq_S, fold_left_app, filter_app, map_app, fold_left_app, <- IH.
  simpl. unfold propagate_from at 1. rewrite filter_cons, filter_nil.
  destruct (Qgtb (V !!! m) 0) eqn:Hfire.
  - rewrite propagate_edges_lookup by (by rewrite ?propagate_prefix_length).
    destruct (decide (j ∈ successors (net_G net) m)).
    + by rewrite decide_True by done.
    + by rewrite decide_False by tauto.
  - by rewrite decide_False by (by intros [[] _]).
Qed.

Lemma propagate_lookup j :
  j < net_N net →
  propagate net V !!! j =
    fold_left Qplus (map (λ i, contribution net V i j) (sources net V j)) 0%Q.
Proof.
  intros Hj. unfold propagate, sources.
  rewrite propagate_prefix by (by rewrite length_replicate).
  by rewrite lookup_total_replicate_2.
Qed.
End Propagation.

(** ** The draws *)

Section Generator.
Local Open Scope Q_scope.

Lemma random_sample_range r :
  0 <= (random_sample r).1 ∧ (random_sample r).1 < 1.
Proof.
  unfold random_sample, next_raw. cbn [fst].
  pose proof (N.mod_lt (tape r (cursor r)) (2 ^ 53) ltac:(done)) as Hlt.
  split.
  - unfold Qle. cbn [Qnum Qden]. rewrite Z.mul_0_l, Z.mul_1_r. apply N2Z.is_nonneg.
  - unfold Qlt. cbn [Qnum Qden]. rewrite Z.mul_1_l, Z.mul_1_r.
    apply N2Z.inj_lt in Hlt. exact Hlt.
Qed.

Lemma uniform_range low high r :
  low <= high →
  low <= (uniform low high r).1 ∧ (uniform low high r).1 <= high.
Proof.
  intros Hlh. unfold uniform.
  pose proof (random_sample_range r) as [H0 H1].
  destruct (random_sample r) as [x r']. cbn [fst] in *. split; nra.
Qed.

Lemma uniform_rng low high r :
  (uniform low high r).2 = mkRandomState (tape r) (S (cursor r)).
Proof. reflexivity. Qed.
End Generator.

Lemma uniform_array_length low high n r :
  length (uniform_array low high n r).1 = n.
Proof.
  revert r. induction n as [|n IH]; intros r; [done|]. cbn [uniform_array].
  destruct (uniform low high r) as [x r1].
  specialize (IH r1). destruct (uniform_array low high n r1) as [xs r2].
  simpl in *. by rewrite IH.
Qed.

Lemma uniform_array_rng low high n r :
  (uniform_array low high n r).2 = advance r n.
Proof.
  revert r. induction n as [|n IH]; intros r; cbn [uniform_array].
  { destruct r. unfold advance. simpl. by rewrite Nat.add_0_r. }
  pose proof (uniform_rng low high r) as Hr.
  destruct (uniform low high r) as [x r1]. cbn [snd] in Hr. subst r1.
  specialize (IH (mkRandomState (tape r) (S (cursor r)))).
  destruct (uniform_array low high n _) as [xs r2]. cbn [snd] in *. subst r2.
  unfold advance. simpl. f_equal. lia.
Qed.

Lemma uniform_array_lookup low high n r j :
  j < n →
  (uniform_array low high n r).1 !!! j = (uniform low high (advance r j)).1.
Proof.
  revert r j. induction n as [|n IH]; intros r j Hj; [lia|]. cbn [uniform_array].
  pose proof (uniform_rng low high r) as Hr.
  destruct (uniform low high r) as [x r1] eqn:Hu. cbn [snd] in Hr. subst r1.
  specialize (IH (mkRandomState (tape r) (S (cursor r)))).
  destruct (uniform_array low high n _) as [xs r2]. cbn [fst] in *.
  destruct j as [|j].
  - replace (advance r 0) with r; [by rewrite Hu|].
    destruct r. unfold advance. simpl. by rewrite Nat.add_0_r.
  - change ((x :: xs) !!! S j) with (xs !!! j). rewrite IH by lia.
    unfold advance. cbn [tape cursor]. by rewrite Nat.add_succ_comm.
Qed.

(** ** Sampling without replacement *)

Section Sampling.

Lemma random_interval_le max r : (random_interval max r).1 ≤ max.
Proof.
  unfold random_interval, next_raw. cbn [fst].
  pose proof (N.mod_lt (tape r (cursor r)) (N.of_nat max + 1)) as Hlt. lia.
Qed.

Lemma swap_length (x : list nat) i j : length (swap x i j) = length x.
Proof. unfold swap. by rewrite !length_insert. Qed.

Lemma swap_perm (x : list nat) i j :
  i < length x → j < length x → swap x i j ≡ₚ x.
Proof.
  intros Hi Hj. unfold swap.
  apply Permutation_insert_swap; by apply list_lookup_lookup_total_lt.
Qed.

Lemma shuffle_steps_perm (positions : list nat) x r :
  Forall (λ i, i < length x) positions →
  (fold_left shuffle_step positions (x, r)).1 ≡ₚ x.
Proof.
  revert x r. induction positions as [|i positions IH]; intros x r Hpos; [done|].
  apply Forall_cons in Hpos as [Hi Hpos]. cbn [fold_left shuffle_step].
  pose proof (random_interval_le i r) as Hj.
  destruct (random_interval i r) as [j r']. cbn [fst] in Hj.
  rewrite IH.
  - apply swap_perm; lia.
  - by rewrite swap_length.
Qed.

Lemma shuffle_perm x r : (shuffle x r).1 ≡ₚ x.
Proof.
  unfold shuffle. apply shuffle_steps_perm, Forall_forall. intros i Hi.
  apply list_elem_of_In, in_rev, in_seq in Hi. lia.
Qed.

Lemma permutation_perm n r : (permutation n r).1 ≡ₚ seq 0 n.
Proof. apply shuffle_perm. Qed.

Lemma choice_raises a size r :
  (Z.of_nat (length a) < size)%Z → choice a size r = Raise ValueError.
Proof. intros H. unfold choice. by apply Z.ltb_lt in H as ->. Qed.

Lemma choice_returns a size r :
  (0 ≤ size ≤ Z.of_nat (length a))%Z →
  ∃ l r', choice a size r = Ok (l, r')
    ∧ length l = Z.to_nat size
    ∧ l ⊆ a
    ∧ (NoDup a → NoDup l).
Proof.
  intros [H0 Hle]. unfold choice.
  rewrite (proj2 (Z.ltb_ge _ _) Hle), (proj2 (Z.ltb_ge _ _) H0).
  pose proof (permutation_perm (length a) r) as Hperm.
  destruct (permutation (length a) r) as [idx r']. cbn [fst] in Hperm.
  eexists _, _. split; [done|].
  assert (∀ i, i ∈ take (Z.to_nat size) idx → i < length a) as Hidx.
  { intros i Hi%subseteq_take. rewrite Hperm in Hi.
    apply elem_of_seq in Hi. lia. }
  split_and!.
  - rewrite length_fmap, length_take_le; [done|].
    rewrite Hperm, length_seq. lia.
  - intros y (i & -> & Hi)%list_elem_of_fmap.
    by apply list_elem_of_lookup_total_2, Hidx.
  - intros Ha. apply NoDup_fmap_2_strong.
    + intros i j Hi%Hidx Hj%Hidx Heq.
      apply (NoDup_lookup a i j (a !!! i)); [done|..].
      * by apply list_lookup_lookup_total_lt.
      * rewrite Heq. by apply list_lookup_lookup_total_lt.
    + apply (sublist_NoDup _ idx); [|apply sublist_take].
      rewrite Hperm. apply NoDup_seq.
Qed.

Lemma filter_all {A} (P : A → Prop) `{!∀ x, Decision (P x)} (l : list A) :
  Forall P l → filter P l = l.
Proof.
  induction 1 as [|x l Hx Hl IH]; [done|].
  by rewrite filter_cons_True, IH.
Qed.

Lemma others_seq (N : Z) (node : nat) :
  node < Z.to_nat N →
  others N node = seq 0 node ++ seq (S node) (Z.to_nat N - S node).
Proof.
  intros Hn. unfold others, range.
  replace (Z.to_nat N) with (node + S (Z.to_nat N - S node)) at 1 by lia.
  rewrite seq_app, filter_app. cbn [seq]. rewrite filter_cons_False by auto.
  rewrite !filter_all; [done|..]; apply Forall_seq; intros; lia.
Qed.

Lemma others_length N node :
  node < Z.to_nat N → length (others N node) = Z.to_nat N - 1.
Proof.
  intros Hn. rewrite others_seq by done. rewrite length_app, !length_seq. lia.
Qed.

Lemma others_NoDup N node : NoDup (others N node).
Proof. apply NoDup_filter, NoDup_seq. Qed.

Lemma elem_of_others N node n :
  n ∈ others N node ↔ n ≠ node ∧ n < Z.to_nat N.
Proof.
  unfold others, range. rewrite list_elem_of_filter, elem_of_seq.
  intuition lia.
Qed.
End Sampling.

(** ** Edges *)

Section Graph.

Lemma for_each_app {A S} (xs ys : list A) (body : A → S → result S) s :
  for_each (xs ++ ys) body s = (for_each xs body s ≫= for_each ys body).
Proof.
  revert s. induction xs as [|x xs IH]; intros s; [done|].
  cbn [app for_each]. by destruct (body x s) as [s'|e]; [apply IH|].
Qed.

Lemma for_each_invariant {A S} (P : S → Prop) (xs : list A)
    (body : A → S → result S) s s' :
  (∀ x s s', P s → body x s = Ok s' → P s') →
  P s → for_each xs body s = Ok s' → P s'.
Proof.
  intros Hbody. revert s. induction xs as [|x xs IH]; intros s Hs; cbn [for_each].
  { by intros [= <-]. }
  destruct (body x s) as [s1|e] eqn:Hx; [|done].
  apply IH. by eapply Hbody.
Qed.

Lemma add_edge_length G u v : length (add_edge G u v) = length G.
Proof. unfold add_edge. case_decide; [done|]. by rewrite length_insert. Qed.

Lemma add_edge_other G u v i :
  i ≠ u → successors (add_edge G u v) i = successors G i.
Proof.
  intros Hne. unfold add_edge. case_decide; [done|].
  unfold successors. by rewrite list_lookup_total_insert_ne.
Qed.

Lemma add_edge_new G u v :
  u < length G → v ∉ successors G u →
  successors (add_edge G u v) u = successors G u ++ [v].
Proof.
  intros Hu Hv. unfold add_edge. rewrite decide_False by done.
  unfold successors. by rewrite list_lookup_total_insert_eq.
Qed.

Lemma add_edge_NoDup G u v :
  (∀ i, NoDup (successors G i)) → ∀ i, NoDup (successors (add_edge G u v) i).
Proof.
  intros HG i. unfold add_edge. case_decide as Hv; [done|].
  unfold successors in *. destruct (decide (i = u)) as [->|Hne].
  - destruct (decide (u < length G)) as [Hu|Hu].
    + rewrite list_lookup_total_insert_eq by done.
      apply NoDup_app. split_and!; [done| |apply NoDup_singleton].
      intros x Hx ->%list_elem_of_singleton. done.
    + rewrite list_insert_ge by lia. done.
  - by rewrite list_lookup_total_insert_ne.
Qed.

Lemma add_edges_NoDup node targets G :
  (∀ i, NoDup (successors G i)) →
  ∀ i, NoDup (successors (fold_left (λ G target, add_edge G node target) targets G) i).
Proof.
  revert G. induction targets as [|t targets IH]; intros G HG; [done|].
  cbn [fold_left]. by apply IH, add_edge_NoDup.
Qed.

Lemma add_edges_fresh node targets G :
  node < length G → NoDup (successors G node ++ targets) →
  let G' := fold_left (λ G target, add_edge G node target) targets G in
  length G' = length G
  ∧ successors G' node = successors G node ++ targets
  ∧ ∀ i, i ≠ node → successors G' i = successors G i.
Proof.
  revert G. induction targets as [|t targets IH]; intros G Hn Hnd; cbn [fold_left].
  { by rewrite app_nil_r. }
  assert (t ∉ successors G node) as Ht.
  { apply NoDup_app in Hnd as (_ & Hdisj & _). intros Hin.
    apply (Hdisj t Hin). by left. }
  destruct (IH (add_edge G node t)) as (Hlen & Hsucc & Hother).
  - by rewrite add_edge_length.
  - rewrite add_edge_new by done. by rewrite <- app_assoc.
  - split_and!.
    + by rewrite Hlen, add_edge_length.
    + rewrite Hsucc, add_edge_new by done. by rewrite <- app_assoc.
    + intros i Hi. by rewrite Hother, add_edge_other.
Qed.

Lemma connect_returns N k node G r :
  (0 ≤ k < N)%Z → node < Z.to_nat N → length G = Z.to_nat N →
  successors G node = [] →
  ∃ G' r', connect N k node (G, r) = Ok (G', r')
    ∧ length G' = Z.to_nat N
    ∧ k_regular_at N k G' node
    ∧ ∀ i, i ≠ node → successors G' i = successors G i.
Proof.
  intros Hk Hnode HG Hempty. unfold connect.
  destruct (choice_returns (others N node) k r)
    as (targets & r' & -> & Hlen & Hsub & Hnd).
  { rewrite others_length by done. lia. }
  specialize (Hnd (others_NoDup N node)).
  destruct (add_edges_fresh node targets G) as (HlenG & Hsucc & Hother).
  { lia. } { by rewrite Hempty. }
  eexists _, _. split; [done|]. rewrite Hempty in Hsucc. cbn [app] in Hsucc.
  split_and!; [lia| |done].
  unfold k_regular_at. rewrite Hsucc. split_and!; [done| |done|].
  - by intros [? _]%Hsub%elem_of_others.
  - by intros t [_ ?]%Hsub%elem_of_others.
Qed.

End Graph.

(** ** The graph the script builds *)

Section Build.
Variable mt19937 : Z → nat → N.

Lemma add_nodes_successors nodes i : successors (add_nodes_from nodes []) i = [].
Proof.
  unfold successors, add_nodes_from. cbn [app].
  rewrite list_lookup_total_alt.
  destruct (replicate (length nodes) [] !! i) as [s|] eqn:Hs; [|done].
  by apply lookup_replicate in Hs as [-> _].
Qed.

Lemma range_length N : length (range N) = Z.to_nat N.
Proof. apply length_seq. Qed.

Lemma connect_prefix N k r m :
  (0 ≤ k < N)%Z → m ≤ Z.to_nat N →
  ∃ G r', for_each (seq 0 m) (connect N k) (add_nodes_from (range N) [], r)
            = Ok (G, r')
    ∧ length G = Z.to_nat N
    ∧ (∀ node, node < m → k_regular_at N k G node)
    ∧ (∀ node, m ≤ node → successors G node = []).
Proof.
  intros Hk. induction m as [|m IH]; intros Hm.
  - eexists _, _. split; [done|]. split_and!.
    + unfold add_nodes_from. cbn [app]. by rewrite length_replicate, range_length.
    + lia.
    + intros. apply add_nodes_successors.
  - destruct IH as (G & r1 & Hrun & Hlen & Hdone & Htodo); [lia|].
    rewrite seq_S, for_each_app, Hrun. cbn [mbind result_bind for_each plus].
    destruct (connect_returns N k m G r1) as (G' & r' & -> & Hlen' & Hm' & Hother);
      [done|lia|done|by apply Htodo|].
    eexists _, _. split; [done|]. split_and!; [done|..].
    + intros node Hnode. destruct (decide (node = m)) as [->|Hne]; [done|].
      unfold k_regular_at. rewrite Hother by done. apply Hdone. lia.
    + intros node Hnode. rewrite Hother by lia. apply Htodo. lia.
Qed.

Lemma build_graph_returns N k s r :
  (0 ≤ k < N)%Z →
  ∃ G r', build_graph mt19937 N k s r = Ok (G, r')
    ∧ length G = Z.to_nat N
    ∧ ∀ node, node < Z.to_nat N → k_regular_at N k G node.
Proof.
  intros Hk. unfold build_graph, range at 2.
  destruct (connect_prefix N k (seed mt19937 s r) (Z.to_nat N))
    as (G & r' & Hrun & Hlen & Hdone & _); [done..|].
  by exists G, r'.
Qed.

Lemma connect_NoDup N k node G r G' r' :
  (∀ i, NoDup (successors G i)) →
  connect N k node (G, r) = Ok (G', r') →
  ∀ i, NoDup (successors G' i).
Proof.
  intros HG. unfold connect.
  destruct (choice (others N node) k r) as [[targets r1]|e]; [|done].
  cbn. intros [= <- <-]. by apply add_edges_NoDup.
Qed.

Lemma connect_length N k node G r G' r' :
  connect N k node (G, r) = Ok (G', r') → length G' = length G.
Proof.
  unfold connect.
  destruct (choice (others N node) k r) as [[targets r1]|e]; [|done].
  cbn. intros [= <- <-]. clear. revert G.
  induction targets as [|t targets IH]; intros G; [done|].
  cbn [fold_left]. by rewrite IH, add_edge_length.
Qed.

Lemma build_graph_simple N k s r G r' :
  build_graph mt19937 N k s r = Ok (G, r') →
  length G = Z.to_nat N ∧ ∀ i, NoDup (successors G i).
Proof.
  unfold build_graph. intros Hrun.
  apply (for_each_invariant
           (λ Gr, length Gr.1 = Z.to_nat N ∧ ∀ i, NoDup (successors Gr.1 i)))
    in Hrun; [done|..].
  - intros node [G1 r1] [G2 r2] [Hlen HG] Hc. cbn [fst] in *. split.
    + by rewrite (connect_length _ _ _ _ _ _ _ Hc).
    + by eapply connect_NoDup.
  - cbn [fst]. split.
    + unfold add_nodes_from. cbn [app]. by rewrite length_replicate, range_length.
    + intros i. rewrite add_nodes_successors. apply NoDup_nil_2.
Qed.

Lemma choice_negative a size r :
  (size < 0)%Z → choice a size r = Raise ValueError.
Proof.
  intros H. unfold choice. apply Z.ltb_lt in H as ->. by destruct (_ <? _)%Z.
Qed.

Lemma connect_raises N k node G r :
  node < Z.to_nat N → (k < 0 ∨ N ≤ k)%Z →
  connect N k node (G, r) = Raise ValueError.
Proof.
  intros Hnode [Hk|Hk]; unfold connect.
  - by rewrite choice_negative.
  - rewrite choice_raises; [done|]. rewrite others_length by done. lia.
Qed.

Lemma build_graph_raises N k s r :
  (0 < N)%Z → (k < 0 ∨ N ≤ k)%Z →
  build_graph mt19937 N k s r = Raise ValueError.
Proof.
  intros HN Hk. unfold build_graph, range.
  destruct (Z.to_nat N) as [|n] eqn:Hn; [lia|].
  cbn [seq for_each]. rewrite connect_raises; [done|lia|done].
Qed.
End Build.

(** ** When set-up returns and what it establishes *)

Section Setup.
Variable mt19937 : Z → nat → N.

Lemma uniform_array_range low high n r i :
  (low <= high)%Q → i < n →
  (low <= (uniform_array low high n r).1 !!! i
   ∧ (uniform_array low high n r).1 !!! i <= high)%Q.
Proof.
  intros Hlh Hi. rewrite uniform_array_lookup by done. by apply uniform_range.
Qed.

Lemma setup_raises N k s r0 :
  (N ≤ 0 ∨ N ≤ k)%Z → ∃ e, setup mt19937 N k s r0 = Raise e.
Proof.
  intros Hbad. unfold setup.
  destruct (decide (0 < N)%Z) as [Hpos|Hneg].
  - rewrite build_graph_raises by lia. by exists ValueError.
  - unfold build_graph, range. replace (Z.to_nat N) with 0 by lia.
    cbn [seq for_each mbind result_bind]. unfold np_full.
    destruct (N <? 0)%Z eqn:HN; [by exists ValueError|].
    apply Z.ltb_ge in HN. replace N with 0%Z by lia.
    by exists IndexError.
Qed.

Lemma setup_sound N k s r0 net st :
  setup mt19937 N k s r0 = Ok (net, st) →
  (0 ≤ k < N)%Z
  ∧ net_N net = Z.to_nat N
  ∧ simple_graph net ∧ sized net st ∧ reset_in_range net.
Proof.
  intros Hsetup.
  assert (0 ≤ k < N)%Z as Hk.
  { destruct (decide (N ≤ 0 ∨ N ≤ k)%Z) as [Hbad|Hok].
    - destruct (setup_raises N k s r0 Hbad) as [e He]. congruence.
    - destruct (decide (k < 0)%Z) as [Hneg|]; [|lia]. exfalso.
      revert Hsetup. unfold setup. by rewrite build_graph_raises by lia. }
  split; [done|]. revert Hsetup. unfold setup.
  destruct (build_graph mt19937 N k s r0) as [[G r]|e] eqn:HG; [|done].
  apply build_graph_simple in HG as [HlenG HG].
  cbn [mbind result_bind]. unfold np_zeros, np_full.
  rewrite (proj2 (Z.ltb_ge N 0)) by lia. cbn [mbind result_bind].
  unfold setitem. rewrite !decide_True by (rewrite length_replicate; lia).
  cbn [mbind result_bind].
  destruct (uniform_array 0.01 0.03 _ r) as [a r1].
  destruct (uniform_array 0.1 0.3 _ r1) as [b r2].
  pose proof (uniform_array_range (-68) (-58) (Z.to_nat N) r2) as Hc.
  destruct (uniform_array (-68) (-58) _ r2) as [c r3].
  destruct (uniform_array 2 10 _ r3) as [d r4].
  destruct (assign_weights G _ r4) as [W r5].
  intros [= <- <-]. split_and!; [done|done| |].
  - unfold sized. cbn. by rewrite length_insert, !length_replicate.
  - intros i Hi. cbn in *. by apply Hc.
Qed.

Lemma setup_returns N k s r0 :
  (0 ≤ k < N)%Z → ∃ net st, setup mt19937 N k s r0 = Ok (net, st).
Proof.
  intros Hk. unfold setup.
  destruct (build_graph_returns mt19937 N k s r0 Hk) as (G & r & -> & _).
  cbn [mbind result_bind]. unfold np_zeros, np_full.
  rewrite (proj2 (Z.ltb_ge N 0)) by lia. cbn [mbind result_bind].
  unfold setitem. rewrite !decide_True by (rewrite length_replicate; lia).
  cbn [mbind result_bind].
  destruct (uniform_array 0.01 0.03 _ r) as [a r1].
  destruct (uniform_array 0.1 0.3 _ r1) as [b r2].
  destruct (uniform_array (-68) (-58) _ r2) as [c r3].
  destruct (uniform_array 2 10 _ r3) as [d r4].
  destruct (assign_weights G _ r4) as [W r5].
  by eexists _, _.
Qed.

(** At the ranges of the script, [setup_with] and [script_with] are
    [setup] and [script]. *)
Lemma setup_with_script_ranges N k s r0 :
  setup_with mt19937 script_ranges N k s r0 = setup mt19937 N k s r0.
Proof. reflexivity. Qed.

Lemma script_with_script_ranges N k T s r0 :
  script_with mt19937 script_ranges N k T s r0 = script mt19937 N k T s r0.
Proof. reflexivity. Qed.


End Setup.

Lemma update_sized net t st : sized net st → sized net (update net t st).
Proof.
  intros [HV Hu]. unfold update, sized.
  destruct (uniform_array _ _ _ _) as [noise rng].
  unfold dynamics.
  destruct (dynamics_prefix net (zip_with Qplus (propagate net (st_V st)) noise)
              (net_N net) (net_N net) (st_V st) (st_u st))
    as (V' & u' & -> & HV' & Hu' & _); done.
Qed.

(** ** One step *)

Section Step.
Context (net : Network) (t : nat) (st : State).

Lemma izhikevich_unfold V u I a b c d :
  izhikevich V u I a b c d =
    if Qgeb (membrane_step V u I) 30
    then (c, (recovery_step V u a b + d)%Q)
    else (membrane_step V u I, recovery_step V u a b).
Proof. reflexivity. Qed.

Lemma update_current : st_I (update net t st) = input_current net (st_V st) (st_rng st).
Proof.
  unfold update, input_current.
  destruct (uniform_array _ _ _ _) as [noise rng].
  by destruct (dynamics _ _ _ _).
Qed.

Lemma update_rng : st_rng (update net t st) = advance (st_rng st) (net_N net).
Proof.
  unfold update. rewrite <- (uniform_array_rng (-0.5) 0.5).
  destruct (uniform_array _ _ _ _) as [noise rng].
  by destruct (dynamics _ _ _ _).
Qed.

Lemma update_lookup i :
  sized net st → i < net_N net →
  let I := input_current net (st_V st) (st_rng st) in
  st_V (update net t st) !!! i
    = clip (izhikevich_at net (st_V st) (st_u st) I i).1 (-80) 80
  ∧ st_u (update net t st) !!! i
    = (izhikevich_at net (st_V st) (st_u st) I i).2.
Proof.
  intros [HV Hu] Hi I. subst I. unfold update, input_current.
  destruct (uniform_array _ _ _ _) as [noise rng]. cbn [fst]. unfold dynamics.
  destruct (dynamics_prefix net (zip_with Qplus (propagate net (st_V st)) noise)
              (net_N net) (net_N net) (st_V st) (st_u st))
    as (V' & u' & -> & _ & _ & Hlt & _); [done..|].
  by apply Hlt.
Qed.

Lemma input_current_lookup j :
  simple_graph net → j < net_N net →
  input_current net (st_V st) (st_rng st) !!! j
    = (total (map (λ i, contribution net (st_V st) i j) (sources net (st_V st) j))
       + (uniform (-0.5) 0.5 (advance (st_rng st) j)).1)%Q.
Proof.
  intros HG Hj. unfold input_current.
  rewrite (lookup_total_zip_with Qplus).
  - rewrite propagate_lookup by done. by rewrite uniform_array_lookup.
  - unfold propagate. by rewrite propagate_prefix_length, length_replicate.
  - by rewrite uniform_array_length.
Qed.
End Step.

Lemma simulate_sized net frames st :
  sized net st → Forall (sized net) (simulate net frames st).
Proof.
  revert st. induction frames as [|t frames IH]; intros st Hst; cbn [simulate].
  { apply Forall_nil_2. }
  apply Forall_cons. split; [by apply update_sized|]. by apply IH, update_sized.
Qed.

Lemma script_invariants mt19937 N k T s r0 net trajectory :
  script mt19937 N k T s r0 = Ok (net, trajectory) →
  simple_graph net ∧ reset_in_range net ∧ Forall (sized net) trajectory.
Proof.
  unfold script.
  destruct (setup mt19937 N k s r0) as [[net0 st0]|e] eqn:Hsetup; [|done].
  cbn [mbind result_bind]. unfold animate.
  destruct (T <=? 0)%Z; [done|]. cbn [mbind result_bind]. intros [= <- <-].
  apply setup_sound in Hsetup as (_ & _ & HG & Hst & Hc).
  split_and!; [done..|]. by apply (simulate_sized net0 (0 :: range T)).
Qed.

Lemma update_clamped net t st i :
  sized net st → i < net_N net →
  (-80 <= st_V (update net t st) !!! i ∧ st_V (update net t st) !!! i <= 80)%Q.
Proof.
  intros Hst Hi. destruct (update_lookup net t st i Hst Hi) as [-> _].
  by apply clip_range.
Qed.

Lemma update_below_30 net t st i :
  sized net st → reset_in_range net → i < net_N net →
  (st_V (update net t st) !!! i < 30)%Q.
Proof.
  intros Hst Hc Hi. destruct (update_lookup net t st i Hst Hi) as [-> _].
  apply clip_lt; [lra|]. unfold izhikevich_at. rewrite izhikevich_unfold.
  destruct (Qgeb _ 30) eqn:Hfire; cbn [fst].
  - destruct (Hc i Hi). lra.
  - by apply Qgeb_false.
Qed.

(** A property that every step establishes from an invariant holds for
    every state of a run. *)
Lemma simulate_Forall (P R : State → Prop) net frames st :
  (∀ t st, P st → P (update net t st) ∧ R (update net t st)) →
  P st → Forall R (simulate net frames st).
Proof.
  intros Hstep. revert st.
  induction frames as [|t frames IH]; intros st Hst; cbn [simulate].
  { apply Forall_nil_2. }
  destruct (Hstep t st Hst) as [HP HR].
  apply Forall_cons. split; [done|]. by apply IH.
Qed.

(** Along every run of the script, every potential stays in [[-80, 30)]. *)
Lemma script_potentials mt19937 N k T s r0 net trajectory :
  script mt19937 N k T s r0 = Ok (net, trajectory) →
  Forall (λ st, ∀ i, i < net_N net →
            (-80 <= st_V st !!! i ∧ st_V st !!! i < 30)%Q) trajectory.
Proof.
  unfold script.
  destruct (setup mt19937 N k s r0) as [[net0 st0]|e] eqn:Hsetup; [|done].
  cbn [mbind result_bind]. unfold animate.
  destruct (T <=? 0)%Z; [done|]. cbn [mbind result_bind]. intros [= <- <-].
  apply setup_sound in Hsetup as (_ & _ & _ & Hst & Hc).
  apply (simulate_Forall (sized net0) _ net0 (0 :: range T)); [|done].
  intros t st Hsized. split; [by apply update_sized|].
  intros i Hi. split.
  - by apply update_clamped.
  - by apply update_below_30.
Qed.

(** C1, on binary64: in the second loop of [update], whatever the current
    of the step, neuron [i] gets [dV = 0.04*V**2 + 5*V + 140 - u + I] and
    [du = a*(b*V - u)] from its own old values, and [V' = V + dV],
    [u' = u + du], each operation rounded.  If [V' >= 30], the recovery
    variable stored is [u' + d] and the potential stored is the clipped
    [c], which is [c] itself for [-80 < c < 80], as it is for every [c]
    sampled from [[-68, -58]].  If not, which includes a NaN, the clipped
    [V'] and [u'] are stored. *)
Theorem izhikevich_reset_rule (pow : float → float → float) (n : nat)
    (params : Params64) (I V u : list float) (i : nat) :
  length V = n → length u = n → i < n →
  let Vi := V !!! i in
  let ui := u !!! i in
  let dV := (0.04 * pow Vi 2 + 5 * Vi + 140 - ui + I !!! i)%float in
  let du := (a64 params !!! i * (b64 params !!! i * Vi - ui))%float in
  let V' := (Vi + dV)%float in
  let u' := (ui + du)%float in
  let c := c64 params !!! i in
  let d := d64 params !!! i in
  let stored := dynamics64 pow n params I V u in
  ((30 <=? V')%float = true →
     stored.2 !!! i = (u' + d)%float
     ∧ stored.1 !!! i = clip64 c (-80) 80
     ∧ ((-80 <? c)%float = true → (c <? 80)%float = true →
        stored.1 !!! i = c))
  ∧ ((30 <=? V')%float = false →
     stored.1 !!! i = clip64 V' (-80) 80
     ∧ stored.2 !!! i = u').
Proof.
  intros HV Hu Hi. cbv zeta.
  destruct (dynamics64_lookup pow params I n V u i HV Hu Hi) as [-> ->].
  unfold izhikevich64_at, izhikevich64.
  split; intros Hfire; rewrite Hfire; cbn [fst snd].
  - split; [done|]. split; [done|]. intros Hlo Hhi. by apply clip64_inside.
  - done.
Qed.


(** C3: for [0 < k < N] the construction of the graph returns; the graph
    has the nodes [0 .. N-1], and every node has exactly [k] successors,
    is not its own successor, and has no successor twice. *)
Theorem graph_construction (mt19937 : Z → nat → N) (N k s : Z) (r : RandomState) :
  (0 < k < N)%Z →
  ∃ G r', build_graph mt19937 N k s r = Ok (G, r')
    ∧ length G = Z.to_nat N
    ∧ ∀ node, node < Z.to_nat N →
        length (successors G node) = Z.to_nat k
        ∧ (node ∉ successors G node)
        ∧ NoDup (successors G node)
        ∧ ∀ target, target ∈ successors G node → target < Z.to_nat N.
Proof.
  intros Hk. apply build_graph_returns. lia.
Qed.

(** C4: after [update], the potential stored for every neuron is the
    clipped result of [izhikevich] and lies in [[-80, 80]]. *)
Theorem clamp_invariant (net : Network) (t : nat) (st : State) (i : nat) :
  sized net st → i < net_N net →
  st_V (update net t st) !!! i
    = clip (izhikevich_at net (st_V st) (st_u st) (st_I (update net t st)) i).1
        (-80) 80
  ∧ (-80 <= st_V (update net t st) !!! i)%Q
  ∧ (st_V (update net t st) !!! i <= 80)%Q.
Proof.
  intros Hst Hi. split; [|by apply update_clamped].
  rewrite update_current. by apply update_lookup.
Qed.

(** C5: [update] first computes the whole current from the potentials
    before the step; the state after the step is, neuron by neuron,
    [izhikevich] and the clip applied to the state before the step with
    that current. *)
Theorem update_two_phase (net : Network) (t : nat) (st : State) (i : nat) :
  sized net st → i < net_N net →
  let I := input_current net (st_V st) (st_rng st) in
  st_I (update net t st) = I
  ∧ st_V (update net t st) !!! i
      = clip (izhikevich_at net (st_V st) (st_u st) I i).1 (-80) 80
  ∧ st_u (update net t st) !!! i
      = (izhikevich_at net (st_V st) (st_u st) I i).2
  ∧ sized net (update net t st).
Proof.
  intros Hst Hi I. split; [apply update_current|].
  destruct (update_lookup net t st i Hst Hi) as [HV Hu].
  split; [done|]. split; [done|]. by apply update_sized.
Qed.

(** C6: the script seeds the generator before its first draw, so two runs
    with the same constants and seed build the same network and go
    through the same states, whatever the generator held before. *)
Theorem seeded_runs_agree (mt19937 : Z → nat → N) (N k T s : Z)
    (r0 r0' : RandomState) :
  setup mt19937 N k s r0 = setup mt19937 N k s r0'
  ∧ script mt19937 N k T s r0 = script mt19937 N k T s r0'.
Proof. split; reflexivity. Qed.


(** C8: [update] does not read the current it is given; runs that differ
    only in the initial current go through the same states. *)
Theorem initial_current_irrelevant (net : Network) (frames : list nat)
    (V u I I' : list Q) (rng : RandomState) :
  simulate net frames (mkState V u I rng)
  = simulate net frames (mkState V u I' rng).
Proof. destruct frames as [|t frames]; reflexivity. Qed.

(** C9: with every [c_i] in [[-68, -58]], what [izhikevich] returns as
    potential is below 30, either [c_i] after a reset or a value that did
    not reach 30; the upper bound of the clip never applies, and the
    potential stored for every neuron after [update] is below 30. *)
Theorem potential_below_30 (net : Network) (t : nat) (st : State) (i : nat) :
  sized net st → reset_in_range net → i < net_N net →
  let x := (izhikevich_at net (st_V st) (st_u st)
              (st_I (update net t st)) i).1 in
  (x < 30)%Q
  ∧ st_V (update net t st) !!! i = Qmax x (-80)
  ∧ (st_V (update net t st) !!! i < 30)%Q.
Proof.
  intros Hst Hc Hi x.
  assert (x < 30)%Q as Hx.
  { unfold x, izhikevich_at. rewrite izhikevich_unfold.
    destruct (Qgeb _ 30) eqn:Hfire; cbn [fst].
    - destruct (Hc i Hi). lra.
    - by apply Qgeb_false. }
  split; [done|]. split; [|by apply update_below_30].
  destruct (update_lookup net t st i Hst Hi) as [-> _].
  rewrite <- (update_current net t st). fold x. unfold clip.
  assert (Qmax x (-80) < 30)%Q as Hmax by (apply Q.max_lub_lt; [done|lra]).
  unfold Qmin, GenericMinMax.gmin.
  destruct (Qmax x (-80) ?= 80)%Q eqn:Hcmp; [done..|].
  apply Qgt_alt in Hcmp. lra.
Qed.


(** ** Scenarios *)

(** Closes a comparison of two closed rationals by evaluation. *)
Ltac by_evaluation :=
  first [apply Qle_bool_iff | apply Qlt_alt]; vm_compute; reflexivity.

(** A resting neuron without input: [dV = -16], no reset. *)
Example izhikevich_at_rest :
  let (V, u) := izhikevich (-65) 0 0 0.02 0.2 (-65) 8 in
  (V == -81 ∧ u == -0.26)%Q.
Proof. split; reflexivity. Qed.

(** The seed neuron at 60: the pre-reset potential is 644, so it resets. *)
Example izhikevich_spike :
  (membrane_step 60 0 0 == 644)%Q
  ∧ let (V, u) := izhikevich 60 0 0 0.02 0.2 (-65) 8 in
    V = (-65)%Q ∧ (u == 8.24)%Q.
Proof. repeat split. Qed.

Example clip_examples :
  clip 100 (-80) 80 = 80%Q ∧ clip (-81) (-80) 80 = (-80)%Q
  ∧ clip (-65) (-80) 80 = (-65)%Q.
Proof. repeat split. Qed.

(** [k = N]: the first [np.random.choice] raises. *)
Example setup_k_equals_N :
  setup example_mt 3 3 42 example_rng = Raise ValueError.
Proof. reflexivity. Qed.

(** [N = 0]: [V[0] = 60] is out of bounds. *)
Example setup_no_neuron :
  setup example_mt 0 0 42 example_rng = Raise IndexError.
Proof. reflexivity. Qed.

(** [N < 0]: [np.full] rejects the dimension. *)
Example setup_negative_N :
  setup example_mt (-1) 0 42 example_rng = Raise ValueError.
Proof. reflexivity. Qed.

(** [N = 1], [k = 0]: no edge, so the only neuron gets noise alone. *)
Example setup_single_neuron :
  match setup example_mt 1 0 42 example_rng with
  | Ok (net, st) =>
      net_G net = [[]] ∧ st_V st = [60%Q] ∧ propagate net (st_V st) = [0%Q]
  | Raise _ => False
  end.
Proof. vm_compute. repeat split. Qed.

(** ** The example network: [N = 3], [k = 1], seed 42 *)

Lemma example_setup :
  setup example_mt 3 1 42 example_rng = Ok (example_net, example_st).
Proof. vm_compute. reflexivity. Defined.

Lemma example_sized : sized example_net example_st.
Proof. split; vm_compute; reflexivity. Defined.

Lemma example_reset_in_range : reset_in_range example_net.
Proof.
  intros i Hi. change (net_N example_net) with 3 in Hi.
  destruct i as [|[|[|i]]]; [| | |lia]; split; by_evaluation.
Defined.

Lemma example_simple_graph : simple_graph example_net.
Proof.
  intros i. destruct i as [|[|[|i]]].
  - change (NoDup [2]). apply NoDup_singleton.
  - change (NoDup [0]). apply NoDup_singleton.
  - change (NoDup [1]). apply NoDup_singleton.
  - change (NoDup (@nil nat)). apply NoDup_nil_2.
Defined.

(** Three neurons, one edge each, neuron 0 starting at 60: in the first
    step only neuron 0 fires, and only its successor, neuron 2, gets
    current from the graph. *)
Example example_graph : net_G example_net = [[2]; [0]; [1]].
Proof. reflexivity. Qed.

Example example_first_propagation :
  propagate example_net (st_V example_st)
  = [0; 0; 0 + contribution example_net (st_V example_st) 0 2]%Q.
Proof. vm_compute. reflexivity. Qed.

Example example_first_step :
  let V := st_V (update example_net 0 example_st) in
  V !!! 0 = p_c (net_params example_net) !!! 0
  ∧ V !!! 1 = (-80)%Q
  ∧ V !!! 2 = p_c (net_params example_net) !!! 2.
Proof. vm_compute. repeat split. Qed.

Lemma izhikevich_reset_rule_witness :
  length example_V64 = 2 ∧ length example_u64 = 2 ∧ 0 < 2
  ∧ (dynamics64 example_pow 2 example_params64
       example_I64 example_V64 example_u64).1 !!! 0 = (-65)%float
  ∧ (dynamics64 example_pow 2 example_params64
       example_I64 example_V64 example_u64).2 !!! 0 = (8.24)%float.
Proof.
  assert (0 < 2) as Hi by lia.
  split; [reflexivity|]. split; [reflexivity|]. split; [exact Hi|].
  destruct (izhikevich_reset_rule example_pow 2 example_params64
              example_I64 example_V64 example_u64 0 eq_refl eq_refl Hi)
    as [Hreset _].
  destruct (Hreset eq_refl) as (Hu & _ & HV).
  split; [exact (HV eq_refl eq_refl)|exact Hu].
Defined.


Lemma graph_construction_witness :
  (0 < 1 < 3)%Z
  ∧ ∃ G r', build_graph example_mt 3 1 42 example_rng = Ok (G, r')
      ∧ length G = Z.to_nat 3
      ∧ ∀ node, node < Z.to_nat 3 →
          length (successors G node) = Z.to_nat 1
          ∧ (node ∉ successors G node)
          ∧ NoDup (successors G node)
          ∧ ∀ target, target ∈ successors G node → target < Z.to_nat 3.
Proof.
  assert (0 < 1 < 3)%Z as Hk by lia. split; [exact Hk|].
  apply (graph_construction example_mt 3 1 42 example_rng Hk).
Defined.

Lemma clamp_invariant_witness :
  sized example_net example_st ∧ 1 < net_N example_net
  ∧ (-80 <= st_V (update example_net 0 example_st) !!! 1%nat)%Q
  ∧ (st_V (update example_net 0 example_st) !!! 1%nat <= 80)%Q.
Proof.
  split; [exact example_sized|].
  assert (1 < net_N example_net) as Hi by (vm_compute; lia).
  split; [exact Hi|].
  apply (clamp_invariant example_net 0 example_st 1 example_sized Hi).
Defined.

Lemma update_two_phase_witness :
  sized example_net example_st ∧ 2 < net_N example_net
  ∧ st_V (update example_net 0 example_st) !!! 2
    = clip (izhikevich_at example_net (st_V example_st) (st_u example_st)
              (input_current example_net (st_V example_st)
                 (st_rng example_st)) 2).1 (-80) 80.
Proof.
  split; [exact example_sized|].
  assert (2 < net_N example_net) as Hi by (vm_compute; lia).
  split; [exact Hi|].
  apply (update_two_phase example_net 0 example_st 2 example_sized Hi).
Defined.

Lemma potential_below_30_witness :
  sized example_net example_st ∧ reset_in_range example_net
  ∧ 0 < net_N example_net
  ∧ (st_V (update example_net 0 example_st) !!! 0%nat < 30)%Q.
Proof.
  split; [exact example_sized|]. split; [exact example_reset_in_range|].
  assert (0 < net_N example_net) as Hi by (vm_compute; lia).
  split; [exact Hi|].
  apply (potential_below_30 example_net 0 example_st 0
           example_sized example_reset_in_range Hi).
Defined.



(** ** What set-up returns, field by field *)

Section SetupFields.
Variable mt19937 : Z → nat → N.

Lemma setup_Ok N k s r0 net st :
  setup mt19937 N k s r0 = Ok (net, st) →
  let n := Z.to_nat N in
  ∃ G r ra rb rc rd,
    (0 ≤ k < N)%Z
    ∧ build_graph mt19937 N k s r0 = Ok (G, r)
    ∧ net_N net = n
    ∧ net_G net = G
    ∧ p_a (net_params net) = (uniform_array 0.01 0.03 n ra).1
    ∧ p_b (net_params net) = (uniform_array 0.1 0.3 n rb).1
    ∧ p_c (net_params net) = (uniform_array (-68) (-58) n rc).1
    ∧ p_d (net_params net) = (uniform_array 2 10 n rd).1
    ∧ (∃ rw, net_W net = (assign_weights G (replicate n (replicate n 0%Q)) rw).1)
    ∧ st_V st = <[0 := 60%Q]> (replicate n (-65)%Q)
    ∧ st_u st = replicate n 0%Q
    ∧ st_I st = <[0 := 150%Q]> (replicate n 0%Q).
Proof.
  intros Hsetup n.
  destruct (setup_sound mt19937 N k s r0 net st Hsetup) as (Hk & _).
  revert Hsetup. unfold setup.
  destruct (build_graph mt19937 N k s r0) as [[G r]|e] eqn:HG; [|done].
  cbn [mbind result_bind]. unfold np_zeros, np_full.
  rewrite (proj2 (Z.ltb_ge N 0)) by lia. cbn [mbind result_bind].
  unfold setitem. rewrite !decide_True by (rewrite length_replicate; lia).
  cbn [mbind result_bind]. fold n.
  destruct (uniform_array 0.01 0.03 n r) as [a r1] eqn:Ha.
  destruct (uniform_array 0.1 0.3 n r1) as [b r2] eqn:Hb.
  destruct (uniform_array (-68) (-58) n r2) as [c r3] eqn:Hc.
  destruct (uniform_array 2 10 n r3) as [d r4] eqn:Hd.
  destruct (assign_weights G _ r4) as [W r5] eqn:HW.
  intros [= <- <-]. exists G, r, r, r1, r2, r3. cbn.
  rewrite Ha, Hb, Hc, Hd. split_and!; try done; try lia.
  exists r4. by rewrite HW.
Qed.
End SetupFields.

(** ** The edge list *)

Section EdgeList.

Lemma elem_of_edges (g : DiGraph) i j :
  (i, j) ∈ edges g ↔ i < length g ∧ j ∈ successors g i.
Proof.
  unfold edges. rewrite list_elem_of_In, in_flat_map. split.
  - intros (i' & Hi' & Hin). apply in_map_iff in Hin as (j' & [= -> ->] & Hj).
    apply in_seq in Hi'. split; [lia|]. by apply list_elem_of_In.
  - intros [Hi Hj]. exists i. split; [apply in_seq; lia|].
    apply in_map_iff. exists j. split; [done|]. by apply list_elem_of_In.
Qed.

Lemma flat_map_length_regular {A} (f : nat → list A) k a m :
  (∀ i, a ≤ i < a + m → length (f i) = k) →
  length (flat_map f (seq a m)) = m * k.
Proof.
  revert a. induction m as [|m IH]; intros a Hf; [done|].
  cbn [seq flat_map]. rewrite length_app, Hf, IH by (intros; try apply Hf; lia).
  done.
Qed.

Lemma pairs_NoDup (f : nat → list nat) (l : list nat) :
  NoDup l → (∀ i, NoDup (f i)) →
  NoDup (flat_map (λ i, map (pair i) (f i)) l).
Proof.
  intros Hl Hf. induction Hl as [|i l Hi Hl IH]; cbn [flat_map].
  { apply NoDup_nil_2. }
  apply NoDup_app. split_and!; [|intros [i' j] Hin Hin'|done].
  - change (NoDup (pair i <$> f i)). apply NoDup_fmap_2; [|done].
    by intros j j' [= ->].
  - apply list_elem_of_In, in_map_iff in Hin as (j' & [= <- <-] & _).
    apply list_elem_of_In, in_flat_map in Hin' as (i' & Hi' & Hin').
    apply in_map_iff in Hin' as (j'' & [= <- <-] & _).
    by apply Hi, list_elem_of_In.
Qed.

Lemma edges_NoDup (g : DiGraph) :
  (∀ i, NoDup (successors g i)) → NoDup (edges g).
Proof. intros Hg. apply pairs_NoDup; [apply NoDup_seq|done]. Qed.

End EdgeList.

(** ** The weight matrix *)

Section Weights.

Lemma set_weight_square n W i j x :
  square n W → square n (set_weight W i j x).
Proof.
  intros [Hlen Hrows]. unfold set_weight, square. rewrite length_insert.
  split; [done|]. intros i' Hi'. destruct (decide (i' = i)) as [->|Hne].
  - rewrite list_lookup_total_insert_eq by lia. rewrite length_insert. by apply Hrows.
  - rewrite list_lookup_total_insert_ne by done. by apply Hrows.
Qed.

Lemma weight_set_weight n W i j x i' j' :
  square n W → i < n → j < n →
  weight (set_weight W i j x) i' j'
  = if decide (i' = i ∧ j' = j) then x else weight W i' j'.
Proof.
  intros [Hlen Hrows] Hi Hj. unfold weight, set_weight.
  destruct (decide (i' = i)) as [->|Hne].
  - rewrite list_lookup_total_insert_eq by lia.
    destruct (decide (j' = j)) as [->|Hnej].
    + rewrite decide_True by done.
      rewrite list_lookup_total_insert_eq; [done|]. rewrite Hrows; lia.
    + rewrite decide_False by tauto. by rewrite list_lookup_total_insert_ne.
  - rewrite decide_False by tauto. by rewrite list_lookup_total_insert_ne.
Qed.

Lemma assign_weights_spec n (G : DiGraph) W r :
  square n W →
  (∀ i j, (i, j) ∈ edges G → i < n ∧ j < n) →
  let W' := (assign_weights G W r).1 in
  square n W'
  ∧ ∀ i j,
      ((i, j) ∈ edges G → (0.8 <= weight W' i j ∧ weight W' i j <= 1.2)%Q)
      ∧ ((i, j) ∉ edges G → weight W' i j = weight W i j).
Proof.
  unfold assign_weights. generalize (edges G) as es. intros es. revert W r.
  induction es as [|[i0 j0] es IH]; intros W r HW Hes; cbn [fold_left fst].
  { split; [done|]. intros i j. split; [by intros ?%elem_of_nil|done]. }
  pose proof (uniform_range 0.8 1.2 r ltac:(lra)) as Hx.
  destruct (uniform 0.8 1.2 r) as [x r']. cbn [fst] in Hx.
  destruct (Hes i0 j0 ltac:(left)) as [Hi0 Hj0].
  destruct (IH (set_weight W i0 j0 x) r') as [HW' Hall].
  { by apply set_weight_square. }
  { intros i j Hin. apply Hes. by right. }
  split; [done|]. intros i j. destruct (Hall i j) as [Hin Hout].
  destruct (decide ((i, j) ∈ es)) as [Hes'|Hes'].
  - split; [intros _; by apply Hin|]. intros Hn. exfalso. apply Hn. by right.
  - split.
    + intros [[= -> ->]|Hin0]%elem_of_cons; [|done].
      rewrite Hout by done.
      rewrite (weight_set_weight n) by done. by rewrite decide_True.
    + intros Hn. rewrite Hout by done.
      rewrite (weight_set_weight n) by done.
      rewrite decide_False; [done|]. intros [-> ->]. apply Hn. by left.
Qed.
End Weights.

(** ** What set-up establishes *)

Section SetupFacts.
Variable mt19937 : Z → nat → N.

Lemma weight_zeros n i j : weight (replicate n (replicate n 0%Q)) i j = 0%Q.
Proof.
  unfold weight. rewrite (list_lookup_total_alt (replicate n (replicate n 0%Q))).
  destruct (replicate n (replicate n 0%Q) !! i) as [row|] eqn:Hrow; cbn.
  - apply lookup_replicate in Hrow as [-> _]. rewrite list_lookup_total_alt.
    destruct (replicate n 0%Q !! j) as [x|] eqn:Hx; [|done].
    by apply lookup_replicate in Hx as [-> _].
  - done.
Qed.

Lemma zeros_square n : square n (replicate n (replicate n 0%Q)).
Proof.
  split; [by rewrite length_replicate|]. intros i Hi.
  by rewrite lookup_total_replicate_2, length_replicate.
Qed.

Lemma successors_out_of_range (G : DiGraph) i :
  length G ≤ i → successors G i = [].
Proof.
  intros Hi. unfold successors. rewrite list_lookup_total_alt.
  by rewrite lookup_ge_None_2.
Qed.

Lemma setup_facts N k s r0 net st :
  setup mt19937 N k s r0 = Ok (net, st) →
  (0 ≤ k < N)%Z
  ∧ net_N net = Z.to_nat N
  ∧ length (net_G net) = net_N net
  ∧ (∀ node, node < net_N net → k_regular_at N k (net_G net) node)
  ∧ square (net_N net) (net_W net)
  ∧ weights_on_edges net
  ∧ sampled_params net
  ∧ initial_state net st.
Proof.
  intros Hsetup.
  destruct (setup_Ok mt19937 N k s r0 net st Hsetup)
    as (G & r & ra & rb & rc & rd & Hk & HG & HN & HnG & Ha & Hb & Hc & Hd
        & [rw HW] & HV & Hu & HI).
  destruct (build_graph_returns mt19937 N k s r0 Hk)
    as (G' & r' & HG' & Hlen & Hreg).
  rewrite HG in HG'. injection HG' as <- <-.
  assert (∀ i j, (i, j) ∈ edges G → i < Z.to_nat N ∧ j < Z.to_nat N) as Hedges.
  { intros i j [Hi Hj]%elem_of_edges. split; [lia|].
    destruct (Hreg i ltac:(lia)) as (_ & _ & _ & Hrange). by apply Hrange. }
  destruct (assign_weights_spec (Z.to_nat N) G _ rw (zeros_square _) Hedges)
    as [Hsq Hw].
  rewrite HN, HnG. split_and!; try done; try lia.
  - by rewrite HW.
  - intros i j. rewrite HnG, HW. destruct (Hw i j) as [Hin Hout].
    case_decide as Hj.
    + apply Hin, elem_of_edges. split; [|done].
      destruct (decide (i < length G)) as [|Hge]; [done|].
      rewrite successors_out_of_range in Hj by lia. by apply elem_of_nil in Hj.
    + rewrite Hout; [apply weight_zeros|]. by intros [_ ?]%elem_of_edges.
  - unfold sampled_params. cbn zeta. rewrite Ha, Hb, Hc, Hd, HN.
    rewrite !uniform_array_length. split_and!; try done.
    intros i Hi. split_and!; apply uniform_array_range; try done; lra.
  - unfold initial_state. by rewrite HV, Hu, HI, HN.
Qed.
End SetupFacts.

(** ** More on the first loop of [update] *)

Section Coupling.
Context (net : Network).

Lemma fold_left_fixed {A B} (f : A → B → A) (l : list B) (a : A) :
  (∀ x, x ∈ l → f a x = a) → fold_left f l a = a.
Proof.
  induction l as [|x l IH]; intros Hf; [done|]. cbn [fold_left].
  rewrite Hf by left. apply IH. intros y Hy. apply Hf. by right.
Qed.

Lemma propagate_from_no_edge V new_I i :
  successors (net_G net) i = [] → propagate_from net V new_I i = new_I.
Proof. intros H. unfold propagate_from. rewrite H. by destruct (Qgtb _ _). Qed.

Lemma propagate_quiet V :
  (∀ i, i < net_N net → (V !!! i <= 0)%Q ∨ successors (net_G net) i = []) →
  propagate net V = replicate (net_N net) 0%Q.
Proof.
  intros Hquiet. unfold propagate. apply fold_left_fixed.
  intros i Hi%elem_of_seq. destruct (Hquiet i ltac:(lia)) as [HV|HG].
  - by apply propagate_from_silent.
  - by apply propagate_from_no_edge.
Qed.

Lemma fold_Qplus_le (xs : list Q) (acc : Q) :
  Forall (λ x, (0 <= x)%Q) xs → (acc <= fold_left Qplus xs acc)%Q.
Proof.
  intros Hxs. revert acc. induction Hxs as [|x xs Hx _ IH]; intros acc.
  { cbn. lra. }
  cbn [fold_left]. specialize (IH (acc + x)%Q). lra.
Qed.

Lemma total_nonneg xs : Forall (λ x, (0 <= x)%Q) xs → (0 <= total xs)%Q.
Proof. apply fold_Qplus_le. Qed.

Lemma total_ge_first x xs :
  Forall (λ x, (0 <= x)%Q) xs → (x <= total (x :: xs))%Q.
Proof.
  intros Hxs. unfold total. cbn [fold_left].
  pose proof (fold_Qplus_le xs (0 + x)%Q Hxs). lra.
Qed.

Lemma contribution_lower V i j :
  weights_on_edges net → reset_in_range net →
  i ∈ sources net V j →
  (46.4 <= contribution net V i j)%Q.
Proof.
  intros HW Hc Hi. unfold sources in Hi.
  apply list_elem_of_filter in Hi as [[Hfire Hedge] Hlt%elem_of_seq].
  specialize (HW i j). rewrite decide_True in HW by done.
  destruct HW as [Hlo _]. destruct (Hc i ltac:(lia)) as [_ Hhi].
  apply Is_true_true, Qgtb_true in Hfire. unfold contribution.
  nra.
Qed.
End Coupling.

(** ** Which potentials a current depends on *)

Section Locality.
Context (net : Network).

Lemma sources_local V V' j :
  (∀ i, j ∈ successors (net_G net) i → V !!! i = V' !!! i) →
  sources net V j = sources net V' j.
Proof.
  intros Hagree. unfold sources. apply list_filter_iff. intros i.
  split; intros [Hfire Hedge]; (split; [|done]).
  - by rewrite <- (Hagree i Hedge).
  - by rewrite (Hagree i Hedge).
Qed.

Lemma contributions_local V V' j :
  (∀ i, j ∈ successors (net_G net) i → V !!! i = V' !!! i) →
  map (λ i, contribution net V i j) (sources net V j)
  = map (λ i, contribution net V' i j) (sources net V' j).
Proof.
  intros Hagree. rewrite <- (sources_local V V' j Hagree).
  apply map_ext_in. intros i Hi%list_elem_of_In. unfold sources in Hi.
  apply list_elem_of_filter in Hi as [[_ Hedge] _].
  unfold contribution. by rewrite (Hagree i Hedge).
Qed.
End Locality.

(** ** Bounds that every step keeps *)

Section Bounded.

Lemma recovery_step_bounds V u a b :
  (0.01 <= a ∧ a <= 0.03)%Q → (0.1 <= b ∧ b <= 0.3)%Q →
  (-80 <= V ∧ V <= 80)%Q → (-24 <= u ∧ u <= 1024)%Q →
  (-24 <= recovery_step V u a b ∧ recovery_step V u a b <= 1014)%Q.
Proof.
  intros [Ha0 Ha1] [Hb0 Hb1] [HV0 HV1] [Hu0 Hu1]. unfold recovery_step.
  assert (-24 <= b * V ∧ b * V <= 24)%Q as [HbV0 HbV1] by (split; nra).
  split; nra.
Qed.

Lemma update_length_I net t st :
  length (st_I (update net t st)) = net_N net.
Proof.
  rewrite update_current. unfold input_current.
  rewrite length_zip_with, uniform_array_length.
  unfold propagate. rewrite propagate_prefix_length, length_replicate. lia.
Qed.

Lemma update_bounded net t st :
  sampled_params net → bounded net st → bounded net (update net t st).
Proof.
  intros (_ & _ & _ & _ & Hp) [Hsized Hst]. split; [by apply update_sized|].
  intros i Hi. split; [by apply update_clamped|].
  destruct (update_lookup net t st i Hsized Hi) as [_ ->].
  destruct (Hp i Hi) as (Ha & Hb & _ & Hd). destruct (Hst i Hi) as [HV Hu].
  pose proof (recovery_step_bounds _ _ _ _ Ha Hb HV Hu) as [Hlo Hhi].
  unfold izhikevich_at. rewrite izhikevich_unfold.
  destruct (Qgeb _ 30); cbn [snd]; split; lra.
Qed.

Lemma initial_bounded net st :
  initial_state net st → bounded net st.
Proof.
  intros (HV & Hu & _). split.
  - split; [rewrite HV|rewrite Hu]; by rewrite ?length_insert, length_replicate.
  - intros i Hi. rewrite HV, Hu, lookup_total_replicate_2 by done.
    split; [|lra]. destruct (decide (i = 0)) as [->|Hne].
    + rewrite list_lookup_total_insert_eq by (by rewrite length_replicate). lra.
    + rewrite list_lookup_total_insert_ne by done.
      rewrite lookup_total_replicate_2 by done. lra.
Qed.
End Bounded.

(** ** The first step after set-up *)

Section FirstStep.
Local Open Scope Q_scope.

Lemma clip_below x lo hi : x < lo → lo <= hi → clip x lo hi = lo.
Proof.
  intros Hx Hlh. unfold clip.
  assert (Qmax x lo = lo) as ->.
  { unfold Qmax, GenericMinMax.gmax. by apply Qlt_alt in Hx as ->. }
  unfold Qmin, GenericMinMax.gmin. destruct (lo ?= hi) eqn:E; try reflexivity.
  apply Qgt_alt in E. lra.
Qed.

Lemma membrane_step_rest I : membrane_step (-65) 0 I == I - 81.
Proof. unfold membrane_step. change ((-65) ^ 2) with 4225. ring. Qed.

Lemma membrane_step_seed I : membrane_step 60 0 I == I + 644.
Proof. unfold membrane_step. change (60 ^ 2) with 3600. ring. Qed.
End FirstStep.

Lemma filter_none {A} (P : A → Prop) `{!∀ x, Decision (P x)} (l : list A) :
  Forall (λ x, ¬ P x) l → filter P l = [].
Proof.
  induction 1 as [|x l Hx Hl IH]; [done|].
  by rewrite filter_cons_False, IH.
Qed.

Section FirstUpdate.
Context (net : Network) (st : State).
Hypothesis HN : 0 < net_N net.
Hypothesis Hinit : initial_state net st.
Hypothesis Hsimple : simple_graph net.
Hypothesis Hloop : 0 ∉ successors (net_G net) 0.
Hypothesis HW : weights_on_edges net.
Hypothesis Hp : sampled_params net.

Lemma initial_V_seed : st_V st !!! 0 = 60%Q.
Proof.
  destruct Hinit as (-> & _).
  by rewrite list_lookup_total_insert_eq by (by rewrite length_replicate).
Qed.

Lemma initial_V_rest i : 0 < i < net_N net → st_V st !!! i = (-65)%Q.
Proof.
  intros Hi. destruct Hinit as (-> & _).
  rewrite list_lookup_total_insert_ne by lia.
  apply lookup_total_replicate_2. lia.
Qed.

Lemma initial_u i : i < net_N net → st_u st !!! i = 0%Q.
Proof.
  intros Hi. destruct Hinit as (_ & -> & _). by apply lookup_total_replicate_2.
Qed.

Lemma initial_sources j :
  sources net (st_V st) j
  = if decide (j ∈ successors (net_G net) 0) then [0] else [].
Proof.
  unfold sources.
  assert (seq 0 (net_N net) = 0 :: seq 1 (net_N net - 1)) as ->.
  { clear -HN. destruct (net_N net) as [|n]; [lia|].
    cbn [seq]. by rewrite Nat.sub_succ, Nat.sub_0_r. }
  rewrite filter_cons, initial_V_seed.
  rewrite (filter_none _ (seq 1 _)).
  - change (Qgtb 60 0) with true. destruct (decide (j ∈ _)) as [Hj|Hj].
    + by rewrite decide_True.
    + rewrite decide_False; [done|]. by intros [_ ?].
  - apply Forall_seq. intros i Hi. rewrite initial_V_rest by lia.
    by intros [[] _].
Qed.

Lemma reset_range i :
  i < net_N net →
  (-68 <= p_c (net_params net) !!! i ∧ p_c (net_params net) !!! i <= -58)%Q.
Proof.
  intros Hi. destruct Hp as (_ & _ & _ & _ & Hr).
  by destruct (Hr i Hi) as (_ & _ & ? & _).
Qed.

Lemma first_current t j :
  j < net_N net →
  let I := st_I (update net t st) !!! j in
  if decide (j ∈ successors (net_G net) 0)
  then (141.9 <= I)%Q
  else (-0.5 <= I ∧ I <= 0.5)%Q.
Proof.
  intros Hj I. unfold I. rewrite update_current.
  rewrite input_current_lookup by done. rewrite initial_sources.
  pose proof (uniform_range (-0.5) 0.5 (advance (st_rng st) j) ltac:(lra))
    as [Hn0 Hn1].
  case_decide as Hedge; cbn [map]; unfold total; cbn [fold_left].
  - unfold contribution. rewrite initial_V_seed.
    pose proof (HW 0 j) as Hw. rewrite decide_True in Hw by done.
    destruct Hw as [Hw _]. destruct (reset_range 0 HN) as [_ Hc]. nra.
  - lra.
Qed.

Lemma first_potential t j :
  j < net_N net →
  st_V (update net t st) !!! j
  = if decide (j = 0 ∨ j ∈ successors (net_G net) 0)
    then p_c (net_params net) !!! j
    else (-80)%Q.
Proof.
  intros Hj. destruct (initial_bounded net st Hinit) as [Hsized _].
  destruct (update_lookup net t st j Hsized Hj) as [-> _].
  rewrite <- (update_current net t st).
  unfold izhikevich_at. rewrite izhikevich_unfold, (initial_u j Hj).
  pose proof (first_current t j Hj) as HI. cbn zeta in HI.
  destruct (reset_range j Hj) as [Hc0 Hc1].
  destruct (decide (j = 0)) as [->|Hne].
  - rewrite decide_True by (by left). rewrite decide_False in HI by done.
    rewrite initial_V_seed.
    pose proof (membrane_step_seed (st_I (update net t st) !!! 0)) as Hm.
    rewrite (proj2 (Qgeb_true _ 30)) by lra. cbn [fst]. apply clip_id; lra.
  - rewrite initial_V_rest by lia.
    pose proof (membrane_step_rest (st_I (update net t st) !!! j)) as Hm.
    destruct (decide (j ∈ successors (net_G net) 0)) as [Hedge|Hedge].
    + rewrite decide_True by (by right).
      rewrite (proj2 (Qgeb_true _ 30)) by lra. cbn [fst]. apply clip_id; lra.
    + rewrite decide_False by tauto.
      rewrite (proj2 (Qgeb_false _ 30)) by lra. cbn [fst].
      apply clip_below; lra.
Qed.

Lemma first_potential_nonpositive t i :
  i < net_N net → (st_V (update net t st) !!! i <= 0)%Q.
Proof.
  intros Hi. rewrite first_potential by done.
  destruct (reset_range i Hi). case_decide; lra.
Qed.

Lemma second_propagation t :
  propagate net (st_V (update net t st)) = replicate (net_N net) 0%Q.
Proof.
  apply propagate_quiet. intros i Hi. left.
  by apply first_potential_nonpositive.
Qed.
End FirstUpdate.

(** ** Runs *)

Section Runs.

End Runs.

(** * Further properties of the script *)

(** X1: set-up leaves an [N] by [N] weight matrix whose entry at every
    edge of the graph lies in [[0.8, 1.2]] and whose every other entry
    is 0. *)
Theorem weights_assigned (mt19937 : Z → nat → N) (N k s : Z)
    (r0 : RandomState) (net : Network) (st : State) :
  setup mt19937 N k s r0 = Ok (net, st) →
  length (net_W net) = net_N net
  ∧ (∀ i, i < net_N net → length (net_W net !!! i) = net_N net)
  ∧ ∀ i j,
      if decide (j ∈ successors (net_G net) i)
      then (0.8 <= weight (net_W net) i j ∧ weight (net_W net) i j <= 1.2)%Q
      else weight (net_W net) i j = 0%Q.
Proof.
  intros Hsetup.
  destruct (setup_facts mt19937 N k s r0 net st Hsetup)
    as (_ & _ & _ & _ & [Hlen Hrows] & HW & _).
  split; [done|]. split; [done|]. exact HW.
Qed.

(** X2: set-up draws one value of each parameter per neuron, [a] in
    [[0.01, 0.03]], [b] in [[0.1, 0.3]], [c] in [[-68, -58]] and [d] in
    [[2, 10]]. *)
Theorem params_sampled (mt19937 : Z → nat → N) (N k s : Z)
    (r0 : RandomState) (net : Network) (st : State) :
  setup mt19937 N k s r0 = Ok (net, st) →
  let p := net_params net in
  length (p_a p) = net_N net ∧ length (p_b p) = net_N net
  ∧ length (p_c p) = net_N net ∧ length (p_d p) = net_N net
  ∧ ∀ i, i < net_N net →
      (0.01 <= p_a p !!! i ∧ p_a p !!! i <= 0.03)%Q
      ∧ (0.1 <= p_b p !!! i ∧ p_b p !!! i <= 0.3)%Q
      ∧ (-68 <= p_c p !!! i ∧ p_c p !!! i <= -58)%Q
      ∧ (2 <= p_d p !!! i ∧ p_d p !!! i <= 10)%Q.
Proof.
  intros Hsetup.
  by destruct (setup_facts mt19937 N k s r0 net st Hsetup)
    as (_ & _ & _ & _ & _ & _ & Hp & _).
Qed.

(** X3: the edge list of the graph set-up builds has [N * k] entries,
    none twice; it holds exactly the pairs of a node and one of its
    successors, and each of them joins two different nodes below [N]. *)
Theorem edge_list (mt19937 : Z → nat → N) (N k s : Z)
    (r0 : RandomState) (net : Network) (st : State) :
  setup mt19937 N k s r0 = Ok (net, st) →
  length (edges (net_G net)) = net_N net * Z.to_nat k
  ∧ NoDup (edges (net_G net))
  ∧ ∀ i j, (i, j) ∈ edges (net_G net) ↔
           i < net_N net ∧ j < net_N net ∧ i ≠ j
           ∧ j ∈ successors (net_G net) i.
Proof.
  intros Hsetup.
  destruct (setup_facts mt19937 N k s r0 net st Hsetup)
    as (_ & HN & HlenG & Hreg & _).
  split; [|split].
  - unfold edges. rewrite HlenG. apply flat_map_length_regular.
    intros i Hi. rewrite length_map. by destruct (Hreg i ltac:(lia)).
  - apply edges_NoDup. intros i.
    destruct (decide (i < net_N net)) as [Hi|Hi].
    + by destruct (Hreg i Hi) as (_ & _ & ? & _).
    + rewrite successors_out_of_range by lia. apply NoDup_nil_2.
  - intros i j. rewrite elem_of_edges, HlenG. split.
    + intros [Hi Hj]. destruct (Hreg i Hi) as (_ & Hself & _ & Hrange).
      split_and!; [done|rewrite HN; by apply Hrange| |done]. by intros ->.
    + by intros (? & _ & _ & ?).
Qed.

(** X4: when every neuron is at or below the firing threshold or has no
    successor, the first loop of [update] leaves the accumulator at zero
    and the current of every neuron is its noise draw alone. *)
Theorem quiet_network (net : Network) (t : nat) (st : State) :
  (∀ i, i < net_N net →
        (st_V st !!! i <= 0)%Q ∨ successors (net_G net) i = []) →
  propagate net (st_V st) = replicate (net_N net) 0%Q
  ∧ ∀ j, j < net_N net →
      st_I (update net t st) !!! j
      = (0 + (uniform (-0.5) 0.5 (advance (st_rng st) j)).1)%Q.
Proof.
  intros Hquiet. pose proof (propagate_quiet net (st_V st) Hquiet) as Hzero.
  split; [done|]. intros j Hj. rewrite update_current. unfold input_current.
  rewrite Hzero, (lookup_total_zip_with Qplus).
  - by rewrite lookup_total_replicate_2, uniform_array_lookup.
  - by rewrite length_replicate.
  - by rewrite uniform_array_length.
Qed.

(** X5: with the weights and reset potentials of set-up, the coupling
    only excites: the current of a neuron is never below the noise floor
    -0.5, it is noise alone when no neighbour feeds it, and at least
    45.9 as soon as one does. *)
Theorem excitatory_current (net : Network) (t : nat) (st : State) (j : nat) :
  simple_graph net → weights_on_edges net → reset_in_range net →
  j < net_N net →
  let I := st_I (update net t st) !!! j in
  (-0.5 <= I)%Q
  ∧ (sources net (st_V st) j = [] → (I <= 0.5)%Q)
  ∧ (sources net (st_V st) j ≠ [] → (45.9 <= I)%Q).
Proof.
  intros HG HW Hc Hj I. unfold I. rewrite update_current.
  rewrite input_current_lookup by done.
  pose proof (uniform_range (-0.5) 0.5 (advance (st_rng st) j) ltac:(lra))
    as [Hn0 Hn1].
  assert (Forall (λ x, (46.4 <= x)%Q)
            (map (λ i, contribution net (st_V st) i j)
               (sources net (st_V st) j))) as Hall.
  { apply Forall_forall. intros x Hx%list_elem_of_In.
    apply in_map_iff in Hx as (i & <- & Hi%list_elem_of_In).
    by apply contribution_lower. }
  assert (Forall (λ x, (0 <= x)%Q)
            (map (λ i, contribution net (st_V st) i j)
               (sources net (st_V st) j))) as Hpos.
  { eapply Forall_impl; [exact Hall|]. cbn. intros x Hx. lra. }
  pose proof (total_nonneg _ Hpos) as Htot.
  split; [lra|]. split.
  - intros Hnone. rewrite Hnone. unfold total. cbn [map fold_left]. lra.
  - intros Hsome.
    destruct (sources net (st_V st) j) as [|i rest]; [done|].
    cbn [map] in *. apply Forall_cons in Hall as [Hfirst _].
    apply Forall_cons in Hpos as [_ Hrest].
    pose proof (total_ge_first (contribution net (st_V st) i j) _ Hrest). lra.
Qed.

(** X6: what [update] stores for neuron [j] depends only on [j]'s own
    potential and recovery variable, on the potentials of the neurons
    with an edge to [j], and on the generator: two states that agree
    there give [j] the same current, potential and recovery variable. *)
Theorem coupling_is_local (net : Network) (t : nat) (st st' : State) (j : nat) :
  simple_graph net → sized net st → sized net st' → j < net_N net →
  st_rng st = st_rng st' →
  st_V st !!! j = st_V st' !!! j →
  st_u st !!! j = st_u st' !!! j →
  (∀ i, j ∈ successors (net_G net) i → st_V st !!! i = st_V st' !!! i) →
  st_I (update net t st) !!! j = st_I (update net t st') !!! j
  ∧ st_V (update net t st) !!! j = st_V (update net t st') !!! j
  ∧ st_u (update net t st) !!! j = st_u (update net t st') !!! j.
Proof.
  intros HG Hst Hst' Hj Hrng HV Hu Hpred.
  assert (st_I (update net t st) !!! j = st_I (update net t st') !!! j) as HI.
  { rewrite (update_current net t st), (update_current net t st').
    rewrite !input_current_lookup by done.
    by rewrite (contributions_local net _ _ j Hpred), Hrng. }
  split; [done|].
  destruct (update_lookup net t st j Hst Hj) as [-> ->].
  destruct (update_lookup net t st' j Hst' Hj) as [-> ->].
  rewrite <- (update_current net t st), <- (update_current net t st').
  unfold izhikevich_at. by rewrite HI, HV, Hu.
Qed.

(** X7: in the first step after set-up, neuron 0 and each of its
    successors take the reset branch and end at their [c]; every other
    neuron ends at the lower clip bound -80. *)
Theorem first_step (mt19937 : Z → nat → N) (N k s : Z)
    (r0 : RandomState) (net : Network) (st : State) (t j : nat) :
  setup mt19937 N k s r0 = Ok (net, st) → j < net_N net →
  st_V (update net t st) !!! j
  = if decide (j = 0 ∨ j ∈ successors (net_G net) 0)
    then p_c (net_params net) !!! j
    else (-80)%Q.
Proof.
  intros Hsetup Hj.
  destruct (setup_facts mt19937 N k s r0 net st Hsetup)
    as (_ & _ & _ & Hreg & _ & HW & Hp & Hinit).
  destruct (setup_sound mt19937 N k s r0 net st Hsetup) as (_ & _ & HG & _).
  apply first_potential; try done; try lia.
  by destruct (Hreg 0 ltac:(lia)) as (_ & ? & _).
Qed.

(** X8: after that first step no potential is above 0, so in the second
    step nothing propagates: the accumulator stays at zero and every
    current is its noise draw alone. *)
Theorem second_step_silent (mt19937 : Z → nat → N) (N k s : Z)
    (r0 : RandomState) (net : Network) (st : State) (t t' : nat) :
  setup mt19937 N k s r0 = Ok (net, st) →
  let st1 := update net t st in
  (∀ i, i < net_N net → (st_V st1 !!! i <= 0)%Q)
  ∧ propagate net (st_V st1) = replicate (net_N net) 0%Q
  ∧ ∀ j, j < net_N net →
      st_I (update net t' st1) !!! j
      = (0 + (uniform (-0.5) 0.5 (advance (st_rng st1) j)).1)%Q.
Proof.
  intros Hsetup st1.
  destruct (setup_facts mt19937 N k s r0 net st Hsetup)
    as (Hk & HN & _ & Hreg & _ & HW & Hp & Hinit).
  destruct (setup_sound mt19937 N k s r0 net st Hsetup) as (_ & _ & HG & _).
  assert (0 < net_N net) as Hpos by lia.
  assert (0 ∉ successors (net_G net) 0) as Hloop
    by (by destruct (Hreg 0 Hpos) as (_ & ? & _)).
  assert (∀ i, i < net_N net → (st_V st1 !!! i <= 0)%Q) as Hquiet.
  { intros i Hi. by apply first_potential_nonpositive. }
  pose proof (second_propagation net st Hpos Hinit HG Hloop HW Hp t) as Hzero.
  split; [done|]. split; [done|]. intros j Hj.
  rewrite update_current. unfold input_current. fold st1 in Hzero.
  rewrite Hzero, (lookup_total_zip_with Qplus).
  - by rewrite lookup_total_replicate_2, uniform_array_lookup.
  - by rewrite length_replicate.
  - by rewrite uniform_array_length.
Qed.


(** X10: in every run of [update] from the state set-up returns, over
    any frames, all three arrays keep length [N], every potential stays
    in [[-80, 30)] and every recovery variable in [[-24, 1024]]. *)
Theorem run_bounded (mt19937 : Z → nat → N) (N k s : Z)
    (r0 : RandomState) (net : Network) (st0 : State) (frames : list nat) :
  setup mt19937 N k s r0 = Ok (net, st0) →
  Forall (λ st,
      length (st_V st) = net_N net ∧ length (st_u st) = net_N net
      ∧ length (st_I st) = net_N net
      ∧ ∀ i, i < net_N net →
          (-80 <= st_V st !!! i ∧ st_V st !!! i < 30)%Q
          ∧ (-24 <= st_u st !!! i ∧ st_u st !!! i <= 1024)%Q)
    (simulate net frames st0).
Proof.
  intros Hsetup.
  destruct (setup_facts mt19937 N k s r0 net st0 Hsetup)
    as (_ & _ & _ & _ & _ & _ & Hp & Hinit).
  destruct (setup_sound mt19937 N k s r0 net st0 Hsetup)
    as (_ & _ & _ & _ & Hc).
  apply (simulate_Forall (bounded net)); [|by apply initial_bounded].
  intros t st Hb. pose proof (update_bounded net t st Hp Hb) as Hb'.
  split; [done|]. destruct Hb as [Hsized _]. destruct Hb' as [[HV Hu] Hst'].
  split_and!; [done|done|apply update_length_I|].
  intros i Hi. destruct (Hst' i Hi) as [[HV0 _] Hu'].
  split; [|done]. split; [done|]. by apply update_below_30.
Qed.

(** X12: with [k = N - 1] every node is joined to every other node. *)
Theorem complete_graph (mt19937 : Z → nat → N) (N s : Z)
    (r0 : RandomState) (net : Network) (st : State) (i j : nat) :
  setup mt19937 N (N - 1) s r0 = Ok (net, st) →
  i < net_N net → j < net_N net → i ≠ j →
  j ∈ successors (net_G net) i.
Proof.
  intros Hsetup Hi Hj Hne.
  destruct (setup_facts mt19937 N (N - 1) s r0 net st Hsetup)
    as (_ & HN & _ & Hreg & _).
  destruct (Hreg i Hi) as (Hlen & Hself & Hnd & Hrange).
  assert (successors (net_G net) i ≡ₚ others N i) as Hperm.
  { apply submseteq_length_Permutation.
    - apply NoDup_submseteq; [done|]. intros x Hx. apply elem_of_others.
      split; [by intros ->|by apply Hrange].
    - rewrite others_length, Hlen by lia. lia. }
  rewrite Hperm. apply elem_of_others. split; [done|lia].
Qed.

(** X13: with [k = 0] set-up builds no edge and leaves [W] at zero, and
    in every step, from any state, the current of every neuron is its
    noise draw alone. *)
Theorem uncoupled_without_edges (mt19937 : Z → nat → N) (N s : Z)
    (r0 : RandomState) (net : Network) (st0 : State) :
  setup mt19937 N 0 s r0 = Ok (net, st0) →
  edges (net_G net) = []
  ∧ (∀ i j, weight (net_W net) i j = 0%Q)
  ∧ ∀ t st j, j < net_N net →
      st_I (update net t st) !!! j
      = (0 + (uniform (-0.5) 0.5 (advance (st_rng st) j)).1)%Q.
Proof.
  intros Hsetup.
  destruct (setup_facts mt19937 N 0 s r0 net st0 Hsetup)
    as (_ & _ & HlenG & Hreg & _ & HW & _).
  assert (∀ i, successors (net_G net) i = []) as Hnone.
  { intros i. destruct (decide (i < net_N net)) as [Hi|Hi].
    - destruct (Hreg i Hi) as (Hlen & _). by apply nil_length_inv.
    - apply successors_out_of_range. lia. }
  split; [|split].
  - apply nil_length_inv. unfold edges.
    rewrite (flat_map_length_regular _ 0); [lia|].
    intros i _. by rewrite Hnone.
  - intros i j. specialize (HW i j). rewrite Hnone in HW.
    by rewrite decide_False in HW by apply not_elem_of_nil.
  - intros t st j Hj. rewrite update_current. unfold input_current.
    rewrite (propagate_quiet net (st_V st)) by (intros; by right).
    rewrite (lookup_total_zip_with Qplus).
    + by rewrite lookup_total_replicate_2, uniform_array_lookup.
    + by rewrite length_replicate.
    + by rewrite uniform_array_length.
Qed.

(** ** The further properties on the example network *)

Lemma example_weights : weights_on_edges example_net.
Proof.
  by destruct (setup_facts example_mt 3 1 42 example_rng example_net example_st
                 example_setup) as (_ & _ & _ & _ & _ & HW & _).
Defined.

Lemma weights_assigned_witness :
  setup example_mt 3 1 42 example_rng = Ok (example_net, example_st)
  ∧ (0.8 <= weight (net_W example_net) 0 2
     ∧ weight (net_W example_net) 0 2 <= 1.2)%Q
  ∧ weight (net_W example_net) 0 1 = 0%Q.
Proof.
  split; [exact example_setup|].
  destruct (weights_assigned example_mt 3 1 42 example_rng example_net
              example_st example_setup) as (_ & _ & HW).
  split; [exact (HW 0 2)|exact (HW 0 1)].
Defined.

Lemma params_sampled_witness :
  setup example_mt 3 1 42 example_rng = Ok (example_net, example_st)
  ∧ length (p_d (net_params example_net)) = net_N example_net.
Proof.
  split; [exact example_setup|].
  by destruct (params_sampled example_mt 3 1 42 example_rng example_net
                 example_st example_setup) as (_ & _ & _ & Hd & _).
Defined.

Lemma edge_list_witness :
  setup example_mt 3 1 42 example_rng = Ok (example_net, example_st)
  ∧ length (edges (net_G example_net)) = net_N example_net * Z.to_nat 1
  ∧ NoDup (edges (net_G example_net)).
Proof.
  split; [exact example_setup|].
  destruct (edge_list example_mt 3 1 42 example_rng example_net example_st
              example_setup) as (Hlen & Hnd & _).
  by split.
Defined.

Lemma example_quiet_after_first_step :
  ∀ i, i < net_N example_net →
    (st_V (update example_net 0 example_st) !!! i <= 0)%Q
    ∨ successors (net_G example_net) i = [].
Proof.
  intros i Hi. change (net_N example_net) with 3 in Hi. left.
  destruct i as [|[|[|i]]]; [| | |lia]; by_evaluation.
Defined.

Lemma quiet_network_witness :
  propagate example_net (st_V (update example_net 0 example_st))
  = replicate (net_N example_net) 0%Q.
Proof.
  destruct (quiet_network example_net 1 (update example_net 0 example_st)
              example_quiet_after_first_step) as [Hzero _].
  exact Hzero.
Defined.

Lemma excitatory_current_witness :
  simple_graph example_net ∧ weights_on_edges example_net
  ∧ reset_in_range example_net ∧ 2 < net_N example_net
  ∧ (-0.5 <= st_I (update example_net 0 example_st) !!! 2%nat)%Q.
Proof.
  split; [exact example_simple_graph|]. split; [exact example_weights|].
  split; [exact example_reset_in_range|].
  assert (2 < net_N example_net) as Hj by (vm_compute; lia).
  split; [exact Hj|].
  destruct (excitatory_current example_net 0 example_st 2 example_simple_graph
              example_weights example_reset_in_range Hj) as [Hfloor _].
  exact Hfloor.
Defined.

Lemma example_other_agrees :
  ∀ i, 2 ∈ successors (net_G example_net) i →
    st_V example_st !!! i = st_V example_other !!! i.
Proof.
  intros i. destruct i as [|[|[|i]]].
  - reflexivity.
  - change (successors (net_G example_net) 1) with [0].
    intros Hin%list_elem_of_singleton. discriminate Hin.
  - change (successors (net_G example_net) 2) with [1].
    intros Hin%list_elem_of_singleton. discriminate Hin.
  - change (successors (net_G example_net) (S (S (S i)))) with (@nil nat).
    intros Hin%elem_of_nil. destruct Hin.
Defined.

Lemma coupling_is_local_witness :
  st_V example_st !!! 1 ≠ st_V example_other !!! 1
  ∧ st_V (update example_net 0 example_st) !!! 2
    = st_V (update example_net 0 example_other) !!! 2.
Proof.
  split; [vm_compute; discriminate|].
  assert (sized example_net example_other) as Hother
    by (split; vm_compute; reflexivity).
  assert (2 < net_N example_net) as Hj by (vm_compute; lia).
  destruct (coupling_is_local example_net 0 example_st example_other 2
              example_simple_graph example_sized Hother Hj
              eq_refl eq_refl eq_refl example_other_agrees) as (_ & HV & _).
  exact HV.
Defined.

Lemma first_step_witness :
  setup example_mt 3 1 42 example_rng = Ok (example_net, example_st)
  ∧ 1 < net_N example_net
  ∧ st_V (update example_net 0 example_st) !!! 1
    = if decide (1 = 0 ∨ 1 ∈ successors (net_G example_net) 0)
      then p_c (net_params example_net) !!! 1
      else (-80)%Q.
Proof.
  split; [exact example_setup|].
  assert (1 < net_N example_net) as Hj by (vm_compute; lia).
  split; [exact Hj|].
  apply (first_step example_mt 3 1 42 example_rng example_net example_st 0 1
           example_setup Hj).
Defined.

Lemma second_step_silent_witness :
  setup example_mt 3 1 42 example_rng = Ok (example_net, example_st)
  ∧ propagate example_net (st_V (update example_net 0 example_st))
    = replicate (net_N example_net) 0%Q.
Proof.
  split; [exact example_setup|].
  destruct (second_step_silent example_mt 3 1 42 example_rng example_net
              example_st 0 1 example_setup) as (_ & Hzero & _).
  exact Hzero.
Defined.



Lemma run_bounded_witness :
  setup example_mt 3 1 42 example_rng = Ok (example_net, example_st)
  ∧ Forall (λ st, length (st_V st) = net_N example_net)
      (simulate example_net (range 2) example_st).
Proof.
  split; [exact example_setup|].
  pose proof (run_bounded example_mt 3 1 42 example_rng example_net
                example_st (range 2) example_setup) as Hrun.
  eapply Forall_impl; [exact Hrun|]. cbn. intros st Hst. exact (proj1 Hst).
Defined.

Lemma example_complete_setup :
  setup example_mt 3 (3 - 1) 42 example_rng
  = Ok (example_complete_net, example_complete_st).
Proof. vm_compute. reflexivity. Defined.

Lemma complete_graph_witness :
  setup example_mt 3 (3 - 1) 42 example_rng
  = Ok (example_complete_net, example_complete_st)
  ∧ 2 ∈ successors (net_G example_complete_net) 0.
Proof.
  split; [exact example_complete_setup|].
  apply (complete_graph example_mt 3 42 example_rng example_complete_net
           example_complete_st 0 2 example_complete_setup);
    [vm_compute; lia|vm_compute; lia|discriminate].
Defined.

Lemma example_single_setup :
  setup example_mt 1 0 42 example_rng
  = Ok (example_single_net, example_single_st).
Proof. vm_compute. reflexivity. Defined.

Lemma uncoupled_without_edges_witness :
  setup example_mt 1 0 42 example_rng
  = Ok (example_single_net, example_single_st)
  ∧ edges (net_G example_single_net) = [].
Proof.
  split; [exact example_single_setup|].
  destruct (uncoupled_without_edges example_mt 1 42 example_rng
              example_single_net example_single_st example_single_setup)
    as [Hnone _].
  exact Hnone.
Defined.
